(** * DualNumbers: dual numbers for forward-mode automatic differentiation

    A shallow embedding of [DualNumber/DualNumber.hpp] and of the driver
    [DualNumber/DualNumber.cpp].  The C++ class
    template [dual<T>] is generic in its value type [T] ("a type that can
    be used like [double]"); the embedding keeps that genericity: the
    operations the template applies to [T] form the class [Scalar], the
    comparisons used through [std::tie] form [Compare], and the functions
    of the standard math library ([std::pow], [log]) form [MathProvider].

    Member functions that update [*this] are state transformers
    [dual T -> dual T] on the object they are called on, written statement
    by statement in the order of the source.  Free functions that take
    their argument by non-const reference return a pair: the value
    returned and the state in which the caller's object is left. *)

From Stdlib Require Import Bool List ZArith QArith Qcanon Field Reals Lra.
From Stdlib Require Import PrimFloat SpecFloat FloatOps FloatAxioms.

Module DualNumbers.

(** ** The value type [T] *)

(** What the template does with a [T]: the literals [T(0.0)], [T(1.0)] and
    [T(0.5)], the four arithmetic operators and unary minus. *)
Class Scalar (T : Type) : Type := {
  szero : T;
  sone  : T;
  shalf : T;
  sadd  : T -> T -> T;
  ssub  : T -> T -> T;
  smul  : T -> T -> T;
  sdiv  : T -> T -> T;
  sopp  : T -> T
}.

(** [operator==] and [operator<] of [T], reached through [std::tie]. *)
Class Compare (T : Type) : Type := {
  seqb : T -> T -> bool;
  sltb : T -> T -> bool
}.

(** The scalar math facility the elementary functions wrap. *)
Class MathProvider (T : Type) : Type := {
  spow : T -> T -> T;
  slog : T -> T
}.

Declare Scope dual_scope.
Delimit Scope dual_scope with dual.
Notation "x + y" := (sadd x y) : dual_scope.
Notation "x - y" := (ssub x y) : dual_scope.
Notation "x * y" := (smul x y) : dual_scope.
Notation "x / y" := (sdiv x y) : dual_scope.
Notation "- x" := (sopp x) : dual_scope.

Local Open Scope dual_scope.

(** ** The class [dual<T>] *)

(** The two private data members [m_a] (value) and [m_b] (derivative).
    The accessors [a()] and [b()] return them unchanged. *)
Record dual (T : Type) : Type := mk_dual { m_a : T; m_b : T }.

Arguments mk_dual {T} _ _.
Arguments m_a {T} _.
Arguments m_b {T} _.

Section Core.
Context {T : Type} {S : Scalar T}.

(** Assignments to one data member of the object. *)
Definition set_a (this : dual T) (v : T) : dual T := mk_dual v (m_b this).
Definition set_b (this : dual T) (v : T) : dual T := mk_dual (m_a this) v.

Definition Zero : dual T := mk_dual szero szero.
Definition ID_Add : dual T := Zero.
Definition ID_Mul : dual T := mk_dual szero szero.

(** [dual()] and [dual(T a, T b = T(0.0))]. *)
Definition dual_default : dual T := mk_dual szero szero.
Definition dual_of (a : T) : dual T := mk_dual a szero.

(** [operator T()]. *)
Definition to_scalar (this : dual T) : T := m_a this.

Definition pos (this : dual T) : dual T := this.
Definition neg (this : dual T) : dual T := mk_dual (- m_a this) (- m_b this).

(** Prefix [++] and [--]: [++m_a] on an arithmetic type adds [1]. *)
Definition pre_inc (this : dual T) : dual T := set_a this (m_a this + sone).
Definition pre_dec (this : dual T) : dual T := set_a this (m_a this - sone).

Definition add_assign (this rhs : dual T) : dual T :=
  let this := set_a this (m_a this + m_a rhs) in
  let this := set_b this (m_b this + m_b rhs) in
  this.

Definition add_assign_scalar (this : dual T) (rhs : T) : dual T :=
  set_a this (m_a this + rhs).

Definition sub_assign (this rhs : dual T) : dual T :=
  let this := set_a this (m_a this - m_a rhs) in
  let this := set_b this (m_b this - m_b rhs) in
  this.

Definition sub_assign_scalar (this : dual T) (rhs : T) : dual T :=
  set_a this (m_a this - rhs).

Definition mul_assign (this rhs : dual T) : dual T :=
  let this := set_b this (m_b this * m_a rhs) in
  let this := set_b this (m_b this + m_a this * m_b rhs) in
  let this := set_a this (m_a this * m_a rhs) in
  this.

Definition mul_assign_scalar (this : dual T) (rhs : T) : dual T :=
  let this := set_b this (m_b this * rhs) in
  let this := set_a this (m_a this * rhs) in
  this.

Definition div_assign (this rhs : dual T) : dual T :=
  let this := set_b this (m_b this * m_a rhs) in
  let this := set_b this (m_b this - m_a this * m_b rhs) in
  let this := set_b this (m_b this / (m_a rhs * m_a rhs)) in
  let this := set_a this (m_a this / m_a rhs) in
  this.

Definition div_assign_scalar (this : dual T) (rhs : T) : dual T :=
  let this := set_a this (m_a this / rhs) in
  let this := set_b this (m_b this / rhs) in
  this.

(** [inverted()]: the second statement reads [m_a] after the first has
    overwritten it. *)
Definition inverted (this : dual T) : dual T :=
  let this := set_a this (sone / m_a this) in
  let this := set_b this (m_b this / - (m_a this * m_a this)) in
  this.

Definition conjugated (this : dual T) : dual T :=
  set_b this (- m_b this).

(** [inverse()] and [conjugate()] return [void]; the result is the new
    state of the object. *)
Definition inverse (this : dual T) : dual T := inverted this.
Definition conjugate (this : dual T) : dual T := conjugated this.

(** *** Free operators: each works on a copy [dual<T>{lhs}] of its left
    operand. *)
Definition op_add (lhs rhs : dual T) : dual T := add_assign lhs rhs.
Definition op_add_r (lhs : dual T) (rhs : T) : dual T := add_assign_scalar lhs rhs.
Definition op_add_l (lhs : T) (rhs : dual T) : dual T := add_assign_scalar rhs lhs.
Definition op_mul (lhs rhs : dual T) : dual T := mul_assign lhs rhs.
Definition op_mul_r (lhs : dual T) (rhs : T) : dual T := mul_assign_scalar lhs rhs.
Definition op_mul_l (lhs : T) (rhs : dual T) : dual T := mul_assign_scalar rhs lhs.
Definition op_sub (lhs rhs : dual T) : dual T := sub_assign lhs rhs.
Definition op_sub_r (lhs : dual T) (rhs : T) : dual T := sub_assign_scalar lhs rhs.
Definition op_sub_l (lhs : T) (rhs : dual T) : dual T := sub_assign (dual_of lhs) rhs.
Definition op_div (lhs rhs : dual T) : dual T := div_assign lhs rhs.
Definition op_div_r (lhs : dual T) (rhs : T) : dual T := div_assign_scalar lhs rhs.
Definition op_div_l (lhs : T) (rhs : dual T) : dual T := div_assign (dual_of lhs) rhs.

(** *** Free functions on a [dual<T>&]: (value returned, argument
    afterwards). *)
Definition post_inc (d : dual T) : dual T * dual T :=
  let copy := d in
  let d := pre_inc d in
  (copy, d).

Definition post_dec (d : dual T) : dual T * dual T :=
  let copy := d in
  let d := pre_dec d in
  (copy, d).

Definition inverted_free (d : dual T) : dual T * dual T :=
  let d := inverse d in
  (d, d).

Definition conjugated_free (d : dual T) : dual T * dual T :=
  let d := conjugate d in
  (d, d).

(** A compound assignment whose right operand is the object itself
    ([x /= x]): [rhs] is a reference to [*this], so every read of [rhs]
    sees the members as already updated.  The free [operator/] never
    does this, since it divides a copy. *)
Definition div_assign_self (this : dual T) : dual T :=
  let this := set_b this (m_b this * m_a this) in
  let this := set_b this (m_b this - m_a this * m_b this) in
  let this := set_b this (m_b this / (m_a this * m_a this)) in
  let this := set_a this (m_a this / m_a this) in
  this.

End Core.

(** ** Comparison operators *)

Section Comparison.
Context {T : Type} {C : Compare T}.

(** [std::tie(m_a, m_b) == std::tie(rhs.m_a, rhs.m_b)]: tuple equality is
    the conjunction of the member-wise [==]. *)
Definition op_eq (this rhs : dual T) : bool :=
  seqb (m_a this) (m_a rhs) && seqb (m_b this) (m_b rhs).

(** [std::tie(m_a, m_b) < std::tie(rhs.m_a, rhs.m_b)]: tuple [<] goes
    through the members from the left; a member decides as soon as it is
    smaller on one side, using only [<] of [T]. *)
Definition op_lt (this rhs : dual T) : bool :=
  if sltb (m_a this) (m_a rhs) then true
  else if sltb (m_a rhs) (m_a this) then false
  else sltb (m_b this) (m_b rhs).

Definition op_ne (lhs rhs : dual T) : bool := negb (op_eq lhs rhs).
Definition op_le (lhs rhs : dual T) : bool := op_eq lhs rhs || op_lt lhs rhs.
Definition op_gt (lhs rhs : dual T) : bool := op_lt rhs lhs.
Definition op_ge (lhs rhs : dual T) : bool := op_eq lhs rhs || op_gt lhs rhs.

End Comparison.

(** ** How a call ends *)

(** A C++ call either returns a value or leaves through a raised failure.
    The header contains no [throw] and no check of a divisor, and the
    operators of an arithmetic [T] do not raise; so the calls below all end
    in [Returned]. *)
Inductive outcome (A : Type) : Type :=
| Returned (v : A)
| DomainError.

Arguments Returned {A} v.
Arguments DomainError {A}.

Definition signals_failure {A : Type} (o : outcome A) : bool :=
  match o with
  | Returned _ => false
  | DomainError => true
  end.

Section Calls.
Context {T : Type} {S : Scalar T}.

Definition call_op_div (lhs rhs : dual T) : outcome (dual T) :=
  Returned (op_div lhs rhs).

Definition call_inverted (this : dual T) : outcome (dual T) :=
  Returned (inverted this).

Definition call_inverted_free (d : dual T) : outcome (dual T * dual T) :=
  Returned (inverted_free d).

End Calls.

(** ** Elementary functions (namespace [cmath]) *)

Section Cmath.
Context {T : Type} {S : Scalar T} {M : MathProvider T}.

(** [pow(const dual<T>& f, const dual<T>& y)]. *)
Definition pow (f y : dual T) : dual T :=
  let real := spow (m_a f) (m_b y) in
  let dpow_y := m_a y * spow (m_a f) (m_a y - sone) in
  let dpow_f := real * slog (m_a f) in
  mk_dual real (dpow_y * m_b f + dpow_f * m_b y).

(** [pow(Exponent f, const dual<T>& y)], scalar base. *)
Definition pow_scalar_base (f : T) (y : dual T) : dual T :=
  let tmp := spow f (m_a y) in
  mk_dual tmp (m_b y * tmp * slog f).

(** [pow(const dual<T>& d, Exponent y)], scalar exponent. *)
Definition pow_scalar_exp (d : dual T) (y : T) : dual T :=
  mk_dual (spow (m_a d) y) (y * m_b d * spow (m_a d) (y - sone)).

(** [log(const dual<T>& d)]. *)
Definition log (d : dual T) : dual T :=
  mk_dual (slog (m_a d)) (m_b d / m_a d).

End Cmath.

(** ** Bessel-family functions *)

(** The cylinder functions of the standard library, per order and
    argument. *)
Class SpecialProvider (N T : Type) : Type := {
  std_cyl_bessel_j : N -> T -> T;
  std_cyl_neumann  : N -> T -> T;
  std_cyl_bessel_i : N -> T -> T;
  std_cyl_bessel_k : N -> T -> T
}.

Section Bessel.
(** [N] is the type of the order [nu]; the argument and the result share
    the value type [T]. *)
Context {N T : Type} {SN : Scalar N} {CN : Compare N} {S : Scalar T}.

Definition calculateBesselFunctions (nu : N) (x : dual T) (bessel : N -> T -> T)
  : dual T :=
  if seqb nu szero then
    mk_dual (bessel szero (m_a x)) (- m_b x * bessel szero (m_a x))
  else
    mk_dual (bessel nu (m_a x))
            (shalf * m_b x * (bessel (nu - sone) (m_a x) - bessel (nu + sone) (m_a x))).

Definition calculateModifiedBesselFunctions (nu : N) (x : dual T) (bessel : N -> T -> T)
  : dual T :=
  if seqb nu szero then
    mk_dual (bessel szero (m_a x)) (m_b x * bessel sone (m_a x))
  else
    mk_dual (bessel nu (m_a x))
            (shalf * m_b x * (bessel (nu - sone) (m_a x) + bessel (nu + sone) (m_a x))).

Context {P : SpecialProvider N T}.

Definition cyl_bessel_j (nu : N) (x : dual T) : dual T :=
  calculateBesselFunctions nu x (fun nu x => std_cyl_bessel_j nu x).

Definition cyl_neumann (nu : N) (x : dual T) : dual T :=
  calculateBesselFunctions nu x (fun nu x => std_cyl_neumann nu x).

Definition cyl_bessel_i (nu : N) (x : dual T) : dual T :=
  calculateModifiedBesselFunctions nu x (fun nu x => std_cyl_bessel_i nu x).

Definition cyl_bessel_k (nu : N) (x : dual T) : dual T :=
  let d := calculateModifiedBesselFunctions nu x (fun nu x => std_cyl_bessel_k nu x) in
  mk_dual (m_a d) (- m_b d).

End Bessel.

(** ** What the specification asks of [T] *)

(** "Field arithmetic": [T] with the operators of [Scalar] is a field, the
    inverse of [x] being [T(1.0) / x]. *)
Definition FieldLaws (T : Type) {S : Scalar T} : Prop :=
  field_theory szero sone sadd smul ssub sopp sdiv (fun x => sone / x) (@eq T).

(** "Totally ordered": [==] decides equality and [<] is a strict total
    order. *)
Record OrderLaws (T : Type) {C : Compare T} : Prop := {
  seqb_eq : forall x y : T, seqb x y = true <-> x = y;
  sltb_irrefl : forall x : T, sltb x x = false;
  sltb_trans : forall x y z : T, sltb x y = true -> sltb y z = true -> sltb x z = true;
  sltb_total : forall x y : T, sltb x y = true \/ x = y \/ sltb y x = true
}.

Arguments FieldLaws T {S}.
Arguments OrderLaws T {C}.

(** The lexicographic order on pairs, in the words of the specification:
    [a] first, then [b] on ties. *)
Definition lex_lt {T : Type} {C : Compare T} (p q : dual T) : Prop :=
  sltb (m_a p) (m_a q) = true \/
  (m_a p = m_a q /\ sltb (m_b p) (m_b q) = true).

(** ** Value types *)

(** Exact rational arithmetic. *)
#[export] Instance Qc_Scalar : Scalar Qc := {
  szero := 0%Qc;
  sone  := 1%Qc;
  shalf := Q2Qc (1 # 2);
  sadd  := Qcplus;
  ssub  := Qcminus;
  smul  := Qcmult;
  sdiv  := Qcdiv;
  sopp  := Qcopp
}.

#[export] Instance Qc_Compare : Compare Qc := {
  seqb := Qc_eq_bool;
  sltb := fun x y => match Qccompare x y with Lt => true | _ => false end
}.

(** [double]: IEEE 754 binary64. *)
#[export] Instance double_Scalar : Scalar float := {
  szero := 0%float;
  sone  := 1%float;
  shalf := 0.5%float;
  sadd  := PrimFloat.add;
  ssub  := PrimFloat.sub;
  smul  := PrimFloat.mul;
  sdiv  := PrimFloat.div;
  sopp  := PrimFloat.opp
}.

#[export] Instance double_Compare : Compare float := {
  seqb := PrimFloat.eqb;
  sltb := PrimFloat.ltb
}.

(** The real numbers, with [std::pow] on a positive base as [Rpower] and
    [log] as [ln]. *)
#[export] Instance R_Scalar : Scalar R := {
  szero := 0%R;
  sone  := 1%R;
  shalf := (/ 2)%R;
  sadd  := Rplus;
  ssub  := Rminus;
  smul  := Rmult;
  sdiv  := Rdiv;
  sopp  := Ropp
}.

#[export] Instance R_MathProvider : MathProvider R := {
  spow := Rpower;
  slog := ln
}.

(** Shorthands for literals. *)
Definition qc (n : Z) (d : positive) : Qc := Q2Qc (n # d).
Definition dq (a b : Z) : dual Qc := mk_dual (qc a 1) (qc b 1).

(** Equality of two rationals, by evaluation. *)
Ltac qc_compute := apply Qc_is_canon; vm_compute; reflexivity.

(** The formulas of the specification, written as it words them, for
    comparison with [inverted] and [pow]. *)
Definition inverse_spec {T : Type} {S : Scalar T} (p : dual T) : dual T :=
  mk_dual (sone / m_a p) (- m_b p / (m_a p * m_a p)).

Definition pow_spec {T : Type} {S : Scalar T} {M : MathProvider T}
  (f y : dual T) : dual T :=
  mk_dual (spow (m_a f) (m_a y))
          (spow (m_a f) (m_a y) *
             (m_b y * slog (m_a f) + m_a y * m_b f / m_a f)).

(** ** The other elementary functions of namespace [cmath] *)

(** The functions of the standard math library that they wrap, and the
    two literals of namespace [Constant]. *)
Class ElementaryProvider (T : Type) : Type := {
  ssqrt : T -> T;
  scbrt : T -> T;
  ssin : T -> T;
  scos : T -> T;
  stan : T -> T;
  sasin : T -> T;
  sacos : T -> T;
  satan : T -> T;
  satan2 : T -> T -> T;
  ssinh : T -> T;
  scosh : T -> T;
  stanh : T -> T;
  sasinh : T -> T;
  sacosh : T -> T;
  satanh : T -> T;
  sexp : T -> T;
  sexp2 : T -> T;
  sexpm1 : T -> T;
  slog1p : T -> T;
  slog10 : T -> T;
  sloge_2 : T;
  sloge_10 : T
}.

Module cmath.
Section Elementary.
Context {T : Type} {S : Scalar T} {E : ElementaryProvider T}.

Definition atan2 (y x : dual T) : dual T :=
  let sumsq_inv := sone / (m_a x * m_a x + m_a y * m_a y) in
  mk_dual (satan2 (m_a y) (m_a x))
          (sumsq_inv * (- m_a y * m_b x + m_a x * m_b y)).

Definition sqrt (d : dual T) : dual T :=
  let sqrt_a := ssqrt (m_a d) in
  mk_dual sqrt_a (m_b d / (sqrt_a + sqrt_a)).

(** [cbrt_a *= cbrt_a] comes before the result is built. *)
Definition cbrt (d : dual T) : dual T :=
  let cbrt_a := scbrt (m_a d) in
  let cbrt_a := cbrt_a * cbrt_a in
  mk_dual cbrt_a (m_b d / (cbrt_a + cbrt_a + cbrt_a)).

Definition sin (d : dual T) : dual T :=
  mk_dual (ssin (m_a d)) (m_b d * scos (m_a d)).

Definition cos (d : dual T) : dual T :=
  mk_dual (scos (m_a d)) (- m_b d * ssin (m_a d)).

Definition tan (d : dual T) : dual T :=
  let cos_a := scos (m_a d) in
  mk_dual (stan (m_a d)) (m_b d / (cos_a * cos_a)).

Definition asin (d : dual T) : dual T :=
  mk_dual (sasin (m_a d)) (m_b d / ssqrt (sone - m_a d * m_a d)).

Definition acos (d : dual T) : dual T :=
  mk_dual (sacos (m_a d)) (- m_b d / ssqrt (sone - m_a d * m_a d)).

Definition atan (d : dual T) : dual T :=
  mk_dual (satan (m_a d)) (m_b d / (sone + m_a d * m_a d)).

Definition sinh (d : dual T) : dual T :=
  mk_dual (ssinh (m_a d)) (m_b d * scosh (m_a d)).

Definition cosh (d : dual T) : dual T :=
  mk_dual (scosh (m_a d)) (m_b d * ssinh (m_a d)).

Definition tanh (d : dual T) : dual T :=
  let cosh_a := scosh (m_a d) in
  mk_dual (stanh (m_a d)) (m_b d / (cosh_a * cosh_a)).

Definition asinh (d : dual T) : dual T :=
  mk_dual (sasinh (m_a d)) (m_b d / ssqrt (sone + m_a d * m_a d)).

Definition acosh (d : dual T) : dual T :=
  mk_dual (sacosh (m_a d)) (m_b d / ssqrt (m_a d * m_a d - sone)).

Definition atanh (d : dual T) : dual T :=
  mk_dual (satanh (m_a d)) (m_b d / (sone - m_a d * m_a d)).

Definition exp (d : dual T) : dual T :=
  let f := sexp (m_a d) in
  mk_dual f (m_b d * f).

Definition exp2 (d : dual T) : dual T :=
  let f := sexp2 (m_a d) in
  mk_dual f (m_b d * f * sloge_2).

Definition expm1 (d : dual T) : dual T :=
  mk_dual (sexpm1 (m_a d)) (m_b d * sexp (m_a d)).

Definition log1p (d : dual T) : dual T :=
  mk_dual (slog1p (m_a d)) (m_b d / (sone + m_a d)).

Definition log10 (d : dual T) : dual T :=
  mk_dual (slog10 (m_a d)) (m_b d / (m_a d * sloge_10)).

(** [log2] is left out: its body brings [std::log10] into scope and calls
    [log2(d.a())], a name that there denotes this very template, which
    takes a [dual<T>]; the template has no instance, hence nothing to
    embed. *)

End Elementary.
End cmath.

(** ** The driver [DualNumber.cpp] *)

Section Driver.
Context {T : Type} {S : Scalar T} {C : Compare T}.

Definition fabs_static (x : T) : T :=
  if sltb x szero then - x else x.

(** [squareroot]: the member [N] is built as [{n, 1.0}]; [operator()]
    is [x * x - N]. *)
Definition squareroot_N (n : T) : dual T := mk_dual n sone.

Definition squareroot (n : T) (x : dual T) : dual T :=
  op_sub (op_mul x x) (squareroot_N n).

(** One pass through the body of the [do ... while] of [newtonMethod],
    started from [xn] with the seed [{xn, 1.0}]: the new [xn] and the
    [diff] that the loop condition looks at. *)
Definition newton_body (f : dual T -> dual T) (xn : T) : T * T :=
  let d := f (mk_dual xn sone) in
  let diff := m_a d / m_b d in
  let xn := xn - diff in
  (xn, diff).

End Driver.

(** The [double] nearest to the literal [1.0E-15]. *)
Definition newton_tolerance : float := 0x1.203af9ee75616p-50%float.

(** The loop condition [1.0E-15 < fabs_static(diff)]. *)
Definition newton_continues (diff : float) : bool :=
  sltb newton_tolerance (fabs_static diff).

(** [newtonMethod]; the loop has no bound of its own, [fuel] is the number
    of passes allowed, and [None] means they did not suffice. *)
Fixpoint newton_loop (fuel : nat) (f : dual float -> dual float) (xn : float)
  : option float :=
  match fuel with
  | O => None
  | S fuel' =>
      let (xn', diff) := newton_body f xn in
      if newton_continues diff then newton_loop fuel' f xn' else Some xn'
  end.

Definition newtonMethod (fuel : nat) (x0 : float)
  (f : dual float -> dual float) : option float :=
  newton_loop fuel f x0.

Definition sqrt_newton (fuel : nat) (n : float) : option float :=
  newtonMethod fuel n (squareroot n).

(** ** Real arithmetic and the real elementary functions *)

#[export] Instance R_Compare : Compare R := {
  seqb := fun x y => if Req_dec_T x y then true else false;
  sltb := fun x y => if Rlt_dec x y then true else false
}.

(** The real cube root, and the two-argument arctangent. *)
Definition Rcbrt (x : R) : R :=
  if Rlt_dec 0 x then Rpower x (/ 3)
  else if Rlt_dec x 0 then (- Rpower (- x) (/ 3))%R
  else 0%R.

Definition Ratan2 (y x : R) : R :=
  if Rlt_dec 0 x then Ratan.atan (y / x)
  else if Rlt_dec x 0 then
         (if Rle_dec 0 y then Ratan.atan (y / x) + PI else Ratan.atan (y / x) - PI)%R
  else if Rlt_dec 0 y then (PI / 2)%R
  else if Rlt_dec y 0 then (- PI / 2)%R
  else 0%R.

#[export] Instance R_ElementaryProvider : ElementaryProvider R := {
  ssqrt := R_sqrt.sqrt;
  scbrt := Rcbrt;
  ssin := Rtrigo_def.sin;
  scos := Rtrigo_def.cos;
  stan := Rtrigo1.tan;
  sasin := Ratan.asin;
  sacos := Ratan.acos;
  satan := Ratan.atan;
  satan2 := Ratan2;
  ssinh := Rtrigo_def.sinh;
  scosh := Rtrigo_def.cosh;
  stanh := Rtrigo_def.tanh;
  sasinh := arcsinh;
  sacosh := fun x => ln (x + R_sqrt.sqrt (x * x - 1));
  satanh := fun x => (/ 2 * ln ((1 + x) / (1 - x)))%R;
  sexp := Rtrigo_def.exp;
  sexp2 := Rpower 2;
  sexpm1 := fun x => (Rtrigo_def.exp x - 1)%R;
  slog1p := fun x => ln (1 + x);
  slog10 := fun x => (ln x / ln 10)%R;
  sloge_2 := (693147180559945309417232121458 / 1000000000000000000000000000000)%R;
  sloge_10 := (2302585092994045684017991454680 / 1000000000000000000000000000000)%R
}.

(** A provider of cylinder functions for the examples: constant in the
    order, exponential in the argument. *)
Definition exp_SpecialProvider : SpecialProvider R R := {|
  std_cyl_bessel_j := fun _ _ => 1%R;
  std_cyl_neumann := fun _ _ => 1%R;
  std_cyl_bessel_i := fun _ s => Rtrigo_def.exp s;
  std_cyl_bessel_k := fun _ s => Rtrigo_def.exp (- s)
|}.

(** The dual number [d] carries the value of [g] at [t] and the derivative
    of [g] at [t]. *)
Definition tracks (g : R -> R) (t : R) (d : dual R) : Prop :=
  m_a d = g t /\ derivable_pt_lim g t (m_b d).

(** At the value component [a], the value component of the result of [F]
    does not look at the derivative component of the argument, and the
    derivative component of the result is linear in it. *)
Definition seed_linear_at {T : Type} {S : Scalar T}
  (F : dual T -> dual T) (a : T) : Prop :=
  forall b c k : T,
    m_a (F (mk_dual a b)) = m_a (F (mk_dual a c)) /\
    m_b (F (mk_dual a (k * b))) = k * m_b (F (mk_dual a b)) /\
    m_b (F (mk_dual a (b + c))) = m_b (F (mk_dual a b)) + m_b (F (mk_dual a c)).

(** The functions of one dual argument, each with the quantity by which
    its body divides the derivative component ([T(1.0)] for a body that
    does not divide): unary minus and [conjugated], the elementary
    functions, the powers with a scalar base or exponent, and the Bessel
    functions of order [nu]. *)
Definition unary_functions {T N : Type} {S : Scalar T} {M : MathProvider T}
  {E : ElementaryProvider T} {SN : Scalar N} {CN : Compare N}
  {P : SpecialProvider N T}
  (nu : N) (bessel : N -> T -> T) (y f : T)
  : list ((dual T -> dual T) * (T -> T)) :=
  let no_division := fun _ : T => sone in
  ((neg, no_division) ::
   (conjugated, no_division) ::
   (cmath.sqrt, fun a => ssqrt a + ssqrt a) ::
   (cmath.cbrt,
    fun a => scbrt a * scbrt a + scbrt a * scbrt a + scbrt a * scbrt a) ::
   (cmath.sin, no_division) ::
   (cmath.cos, no_division) ::
   (cmath.tan, fun a => scos a * scos a) ::
   (cmath.asin, fun a => ssqrt (sone - a * a)) ::
   (cmath.acos, fun a => ssqrt (sone - a * a)) ::
   (cmath.atan, fun a => sone + a * a) ::
   (cmath.sinh, no_division) ::
   (cmath.cosh, no_division) ::
   (cmath.tanh, fun a => scosh a * scosh a) ::
   (cmath.asinh, fun a => ssqrt (sone + a * a)) ::
   (cmath.acosh, fun a => ssqrt (a * a - sone)) ::
   (cmath.atanh, fun a => sone - a * a) ::
   (cmath.exp, no_division) ::
   (cmath.exp2, no_division) ::
   (cmath.expm1, no_division) ::
   (log, fun a => a) ::
   (cmath.log1p, fun a => sone + a) ::
   (cmath.log10, fun a => a * sloge_10) ::
   ((fun d => pow_scalar_exp d y), no_division) ::
   (pow_scalar_base f, no_division) ::
   ((fun x => calculateBesselFunctions nu x bessel), no_division) ::
   ((fun x => calculateModifiedBesselFunctions nu x bessel), no_division) ::
   (cyl_bessel_j nu, no_division) ::
   (cyl_neumann nu, no_division) ::
   (cyl_bessel_i nu, no_division) ::
   (cyl_bessel_k nu, no_division) ::
   nil)%list.

(** The iterates of the Newton update, [x0] being the first. *)
Fixpoint newton_iterate (n : nat) (f : dual float -> dual float) (x0 : float)
  : float :=
  match n with
  | O => x0
  | S n' => newton_iterate n' f (fst (newton_body f x0))
  end.

(** * Properties *)

(** ** Unfolding equations of the operators *)

Section CoreEquations.
Context {T : Type} {S : Scalar T}.

Lemma op_mul_eq (p q : dual T) :
  op_mul p q = mk_dual (m_a p * m_a q) (m_b p * m_a q + m_a p * m_b q).
Proof. reflexivity. Qed.

Lemma op_div_eq (p q : dual T) :
  op_div p q =
  mk_dual (m_a p / m_a q) ((m_b p * m_a q - m_a p * m_b q) / (m_a q * m_a q)).
Proof. reflexivity. Qed.

(** The derivative component of [inverted] is divided by the square of the
    value component that was just stored, [1/a]. *)
Lemma inverted_eq (p : dual T) :
  inverted p =
  mk_dual (sone / m_a p) (m_b p / - ((sone / m_a p) * (sone / m_a p))).
Proof. reflexivity. Qed.

Lemma conjugated_eq (p : dual T) :
  conjugated p = mk_dual (m_a p) (- m_b p).
Proof. reflexivity. Qed.

End CoreEquations.

(** ** Consequences of field arithmetic *)

Section Field.
Context {T : Type} {S : Scalar T}.
Hypothesis F : FieldLaws T.

Lemma scalar_field_theory :
  field_theory szero sone sadd smul ssub sopp sdiv (fun x : T => sone / x) eq.
Proof. exact F. Qed.

Add Field scalar_field : scalar_field_theory.

Lemma sone_neq_szero : sone <> (szero : T).
Proof. exact (F_1_neq_0 scalar_field_theory). Qed.

Lemma sopp_sone_neq_szero : - sone <> (szero : T).
Proof.
  intros H. apply sone_neq_szero.
  transitivity (- - (sone : T)); [ring | rewrite H; ring].
Qed.

Lemma sdiv_sone_neq_szero (a : T) : a <> szero -> sone / a <> szero.
Proof.
  intros Ha H.
  apply sone_neq_szero.
  transitivity ((sone / a) * a); [field; assumption | rewrite H; ring].
Qed.

(** Side conditions left by [field]. *)
Ltac nonzero :=
  repeat split;
  solve [ assumption
        | exact sone_neq_szero
        | exact sopp_sone_neq_szero
        | apply sdiv_sone_neq_szero; assumption ].

(** On a field, what [inverted] leaves in the derivative component is
    [-(b * a^2)]. *)
Lemma inverted_field (a b : T) :
  a <> szero ->
  inverted (mk_dual a b) = mk_dual (sone / a) (- (b * (a * a))).
Proof.
  intros Ha. rewrite inverted_eq; cbn [m_a m_b].
  f_equal. field; nonzero.
Qed.

Lemma inverted_inverted (p : dual T) :
  m_a p <> szero -> inverted (inverted p) = p.
Proof.
  destruct p as [a b]; cbn [m_a]; intros Ha.
  rewrite (inverted_field a b Ha).
  rewrite (inverted_field _ _ (sdiv_sone_neq_szero a Ha)).
  f_equal; field; nonzero.
Qed.

Lemma conjugated_conjugated (p : dual T) : conjugated (conjugated p) = p.
Proof.
  destruct p as [a b]. rewrite !conjugated_eq; cbn [m_a m_b].
  f_equal; ring.
Qed.

Lemma op_mul_ID_Mul (p : dual T) : op_mul p ID_Mul = Zero.
Proof.
  rewrite op_mul_eq. unfold ID_Mul, Zero; cbn [m_a m_b].
  f_equal; ring.
Qed.

(** *** Division *)

(** C4. For (a, b) and (c, d) with c <> 0, division returns
    (a/c, (b*c - a*d)/(c*c)); in particular, for x <> 0, dividing the
    constant (1, 0) by (x, 1) gives the derivative component -1/(x*x).
    The constant is built both as [dual<T>{1}] and through the overload
    taking a scalar on the left. *)
Theorem op_div_quotient_rule (a b c d x : T) :
  c <> szero ->
  x <> szero ->
  op_div (mk_dual a b) (mk_dual c d) =
    mk_dual (a / c) ((b * c - a * d) / (c * c)) /\
  op_div (dual_of sone) (mk_dual x sone) =
    mk_dual (sone / x) (- sone / (x * x)) /\
  op_div_l sone (mk_dual x sone) =
    mk_dual (sone / x) (- sone / (x * x)).
Proof.
  intros Hc Hx. split; [reflexivity|].
  assert (E : op_div (dual_of sone) (mk_dual x sone) =
              mk_dual (sone / x) (- sone / (x * x))).
  { rewrite op_div_eq. unfold dual_of; cbn [m_a m_b].
    f_equal. field; nonzero. }
  split; [exact E | exact E].
Qed.

(** *** The named constants *)

(** C9. [ID_Mul] returns the pair (0, 0), the value of [Zero] and of
    [ID_Add]; multiplying by it gives [Zero] whatever the other factor, so
    some p has p * ID_Mul() <> p: what [ID_Mul] returns is not an identity
    of the multiplication. *)
Theorem ID_Mul_is_zero_not_identity :
  (ID_Mul : dual T) = mk_dual szero szero /\
  (ID_Mul : dual T) = Zero /\
  (ID_Mul : dual T) = ID_Add /\
  (forall p : dual T, op_mul p ID_Mul = Zero) /\
  exists p : dual T, op_mul p ID_Mul <> p.
Proof.
  repeat split; try reflexivity.
  - exact op_mul_ID_Mul.
  - exists (mk_dual sone szero). rewrite op_mul_ID_Mul. unfold Zero.
    intros E. apply sone_neq_szero. injection E. auto.
Qed.

End Field.

(** ** Involutions *)

(** Negation of a [double] flips the sign, also of zeros, infinities and
    NaN; twice is the identity. *)
Lemma double_sopp_involutive (b : float) : - - b = b.
Proof.
  apply Prim2SF_inj. cbn [sopp double_Scalar].
  rewrite !opp_spec.
  destruct (Prim2SF b) as [s | s | | s m e]; cbn [SpecFloat.SFopp];
    rewrite ?negb_involutive; reflexivity.
Qed.

Lemma conjugated_twice {T : Type} {S : Scalar T} (p : dual T) :
  (forall b : T, - - b = b) -> conjugated (conjugated p) = p.
Proof.
  intros Hopp. destruct p as [a b].
  rewrite !conjugated_eq; cbn [m_a m_b]. rewrite Hopp. reflexivity.
Qed.

(** C6, with exact arithmetic for the inversion.  Over a value type with
    field arithmetic, when the value component of p is not 0, inverting
    twice gives p back, through the member functions and through the free
    function alike (its returned value and the object it leaves behind).
    Conjugating twice gives p back for every p, over every value type
    whose negation applied twice is the identity; [double] is one, so it
    holds for every dual number over [double]. *)
Theorem inversion_conjugation_involutions {T : Type} {S : Scalar T}
  (p : dual T) :
  (FieldLaws T ->
   m_a p <> szero ->
     inverted (inverted p) = p /\
     inverse (inverse p) = p /\
     inverted_free (snd (inverted_free p)) = (p, p)) /\
  ((forall b : T, - - b = b) ->
     conjugated (conjugated p) = p /\
     conjugate (conjugate p) = p /\
     conjugated_free (snd (conjugated_free p)) = (p, p)) /\
  (forall q : dual float,
     conjugated (conjugated q) = q /\
     conjugate (conjugate q) = q /\
     conjugated_free (snd (conjugated_free q)) = (q, q)).
Proof.
  assert (Hconj : forall (U : Type) (SU : Scalar U) (q : dual U),
            (forall b : U, - - b = b) ->
            conjugated (conjugated q) = q /\
            conjugate (conjugate q) = q /\
            conjugated_free (snd (conjugated_free q)) = (q, q)).
  { intros U SU q Hopp. pose proof (conjugated_twice q Hopp) as E.
    unfold conjugated_free, conjugate; cbn [snd].
    rewrite E. auto. }
  repeat match goal with |- _ /\ _ => split end.
  - intros F Ha. pose proof (inverted_inverted F p Ha) as E.
    unfold inverted_free, inverse; cbn [snd].
    rewrite E. auto.
  - apply Hconj.
  - intros q. apply Hconj. exact double_sopp_involutive.
Qed.

(** C6 as first stated, refuted at [double]: the value component of
    (49, 1) is not 0, yet inverting it twice gives a dual number that [==]
    tells from (49, 1), in both components. *)
Lemma double_inversion_not_involutive :
  seqb (m_a (mk_dual 49%float 1%float)) szero = false /\
  op_eq (inverted (inverted (mk_dual 49%float 1%float)))
        (mk_dual 49%float 1%float) = false /\
  seqb (m_a (inverted (inverted (mk_dual 49%float 1%float)))) 49%float = false /\
  seqb (m_b (inverted (inverted (mk_dual 49%float 1%float)))) 1%float = false /\
  inverted (inverted (mk_dual 49%float 1%float)) <> mk_dual 49%float 1%float /\
  fst (inverted_free (snd (inverted_free (mk_dual 49%float 1%float))))
    <> mk_dual 49%float 1%float.
Proof.
  repeat match goal with |- _ /\ _ => split end;
    try (vm_compute; reflexivity);
    intros H;
    apply (f_equal (fun p => seqb (m_a p) 49%float)) in H;
    vm_compute in H; discriminate.
Qed.

(** ** Consequences of a total order *)

Section Order.
Context {T : Type} {C : Compare T}.
Hypothesis O : OrderLaws T.

Lemma op_eq_iff (p q : dual T) : op_eq p q = true <-> p = q.
Proof.
  destruct p as [a b], q as [c d]. unfold op_eq; cbn [m_a m_b].
  rewrite andb_true_iff, !(seqb_eq T O).
  split.
  - intros [-> ->]. reflexivity.
  - intros E. injection E. auto.
Qed.

Lemma op_lt_iff (p q : dual T) : op_lt p q = true <-> lex_lt p q.
Proof.
  destruct p as [a b], q as [c d]. unfold op_lt, lex_lt; cbn [m_a m_b].
  destruct (sltb a c) eqn:Hac.
  - split; auto.
  - destruct (sltb c a) eqn:Hca.
    + split; [discriminate|].
      intros [H | [E _]]; [discriminate|].
      subst c. rewrite (sltb_irrefl T O) in Hca. discriminate.
    + destruct (sltb_total T O a c) as [H | [E | H]]; try congruence.
      subst c. split; [auto|].
      intros [H | [_ H]]; [discriminate | exact H].
Qed.

Lemma lex_lt_irrefl (p : dual T) : ~ lex_lt p p.
Proof.
  unfold lex_lt. rewrite !(sltb_irrefl T O).
  intros [H | [_ H]]; discriminate.
Qed.

Lemma lex_lt_trans (p q r : dual T) : lex_lt p q -> lex_lt q r -> lex_lt p r.
Proof.
  unfold lex_lt. intros [H1 | [E1 H1]] [H2 | [E2 H2]].
  - left. exact (sltb_trans T O _ _ _ H1 H2).
  - left. rewrite <- E2. exact H1.
  - left. rewrite E1. exact H2.
  - right. split; [congruence | exact (sltb_trans T O _ _ _ H1 H2)].
Qed.

Lemma lex_lt_total (p q : dual T) : lex_lt p q \/ p = q \/ lex_lt q p.
Proof.
  destruct p as [a b], q as [c d]. unfold lex_lt; cbn [m_a m_b].
  destruct (sltb_total T O a c) as [H | [E | H]]; auto.
  subst c.
  destruct (sltb_total T O b d) as [H | [E | H]]; auto.
  subst d. auto.
Qed.

Lemma lex_lt_asym (p q : dual T) : lex_lt p q -> ~ lex_lt q p.
Proof.
  intros H K. exact (lex_lt_irrefl p (lex_lt_trans p q p H K)).
Qed.

(** C7. For p = (a, b) and q = (c, d) over a totally ordered value type:
    [==] holds exactly when a = c and b = d; [<] holds exactly when a < c,
    or a = c and b < d; and [!=], [<=], [>], [>=] are the relations that
    this lexicographic order induces, which is total. *)
Theorem comparison_operators_lexicographic (p q : dual T) :
  (op_eq p q = true <-> m_a p = m_a q /\ m_b p = m_b q) /\
  (op_lt p q = true <->
     sltb (m_a p) (m_a q) = true \/
     (m_a p = m_a q /\ sltb (m_b p) (m_b q) = true)) /\
  (op_ne p q = true <-> p <> q) /\
  (op_le p q = true <-> lex_lt p q \/ p = q) /\
  (op_gt p q = true <-> lex_lt q p) /\
  (op_ge p q = true <-> lex_lt q p \/ p = q) /\
  (op_le p q = true <-> ~ lex_lt q p) /\
  (op_ge p q = true <-> ~ lex_lt p q) /\
  (lex_lt p q \/ p = q \/ lex_lt q p).
Proof.
  assert (Hle : op_le p q = true <-> lex_lt p q \/ p = q).
  { unfold op_le. rewrite orb_true_iff, op_eq_iff, op_lt_iff. tauto. }
  assert (Hge : op_ge p q = true <-> lex_lt q p \/ p = q).
  { unfold op_ge, op_gt. rewrite orb_true_iff, op_eq_iff, op_lt_iff. tauto. }
  assert (Hirr : forall r : dual T, ~ lex_lt r r) by exact lex_lt_irrefl.
  pose proof (lex_lt_total p q) as Htot.
  pose proof (lex_lt_asym p q) as Hasym.
  repeat match goal with |- _ /\ _ => split end.
  - rewrite op_eq_iff. split.
    + intros ->. auto.
    + destruct p, q; cbn [m_a m_b]. intros [-> ->]. reflexivity.
  - apply op_lt_iff.
  - unfold op_ne. rewrite negb_true_iff, <- not_true_iff_false, op_eq_iff.
    reflexivity.
  - exact Hle.
  - unfold op_gt. apply op_lt_iff.
  - exact Hge.
  - rewrite Hle. split.
    + intros [H | ->]; [auto | apply Hirr].
    + intros H. destruct Htot as [H1 | [H1 | H1]]; tauto.
  - rewrite Hge. split.
    + intros [H | ->]; [intros K; exact (Hasym K H) | apply Hirr].
    + intros H. destruct Htot as [H1 | [H1 | H1]]; tauto.
  - exact Htot.
Qed.

End Order.

(** ** The laws hold for the rationals *)

Lemma Qc_FieldLaws : FieldLaws Qc.
Proof.
  assert (inv_eq : forall x : Qc, (1 / x = / x)%Qc)
    by (intros x; unfold Qcdiv; apply Qcmult_1_l).
  constructor.
  - exact Qcrt.
  - exact Q_apart_0_1.
  - intros p q. cbn. rewrite inv_eq. reflexivity.
  - intros p Hp. cbn. rewrite inv_eq. apply Qcmult_inv_l. exact Hp.
Qed.

Lemma Qc_sltb_lt (x y : Qc) : sltb x y = true <-> (x < y)%Qc.
Proof.
  cbn. rewrite Qclt_alt. destruct (x ?= y)%Qc; split; congruence.
Qed.

Lemma Qc_OrderLaws : OrderLaws Qc.
Proof.
  constructor.
  - intros x y. cbn. unfold Qc_eq_bool.
    destruct (Qc_eq_dec x y); split; congruence.
  - intros x. destruct (sltb x x) eqn:E; [|reflexivity].
    apply Qc_sltb_lt in E. exfalso. exact (Qclt_not_eq _ _ E eq_refl).
  - intros x y z. rewrite !Qc_sltb_lt. apply Qclt_trans.
  - intros x y. rewrite !Qc_sltb_lt.
    destruct (Qc_dec x y) as [[H | H] | H]; auto.
Qed.

(** Telling rational literals apart. *)
Lemma qc_neq (n m : Z) (d e : positive) :
  Qeq_bool (n # d) (m # e) = false -> qc n d <> qc m e.
Proof.
  intros H E. apply Q2Qc_eq_iff, Qeq_bool_iff in E. congruence.
Qed.

(** ** Frame properties *)

(** C8. Increment and decrement, prefix and postfix, change the value
    component only: the object becomes (a + 1, b), respectively
    (a - 1, b); the postfix forms return the value held before. *)
Theorem increment_decrement_value_only {T : Type} {S : Scalar T} (a b : T) :
  pre_inc (mk_dual a b) = mk_dual (a + sone) b /\
  pre_dec (mk_dual a b) = mk_dual (a - sone) b /\
  post_inc (mk_dual a b) = (mk_dual a b, mk_dual (a + sone) b) /\
  post_dec (mk_dual a b) = (mk_dual a b, mk_dual (a - sone) b) /\
  m_b (snd (post_inc (mk_dual a b))) = b /\
  m_b (snd (post_dec (mk_dual a b))) = b.
Proof. repeat split. Qed.

(** C10. The free functions [inverted] and [conjugated] update the object
    they are given: afterwards it holds what the member [inverted]
    (respectively [conjugated]) leaves, that is also the value returned,
    and the value it held before is gone, as for (2, 1). *)
Theorem free_functions_mutate_argument {T : Type} {S : Scalar T} (d : dual T) :
  snd (inverted_free d) = inverted d /\
  fst (inverted_free d) = snd (inverted_free d) /\
  m_a (snd (inverted_free d)) = sone / m_a d /\
  snd (conjugated_free d) = mk_dual (m_a d) (- m_b d) /\
  fst (conjugated_free d) = snd (conjugated_free d) /\
  snd (inverted_free (dq 2 1)) <> dq 2 1 /\
  snd (conjugated_free (dq 2 1)) <> dq 2 1.
Proof.
  repeat match goal with |- _ /\ _ => split end; try reflexivity.
  - intros E. apply (f_equal (fun p => this (m_a p))) in E.
    vm_compute in E. discriminate.
  - intros E. apply (f_equal (fun p => this (m_b p))) in E.
    vm_compute in E. discriminate.
Qed.

(** ** Inversion *)

(** C1, at the input (2, 1).  The specification gives (1/2, -1/4);
    [inverted], its wrapper [inverse] and the free function give
    (1/2, -4), over the rationals and over [double]. *)
Theorem inverted_derivative_at_2_1 :
  inverse_spec (dq 2 1) = mk_dual (qc 1 2) (qc (-1) 4) /\
  inverted (dq 2 1) = mk_dual (qc 1 2) (qc (-4) 1) /\
  inverse (dq 2 1) = mk_dual (qc 1 2) (qc (-4) 1) /\
  fst (inverted_free (dq 2 1)) = mk_dual (qc 1 2) (qc (-4) 1) /\
  inverted (dq 2 1) <> inverse_spec (dq 2 1) /\
  inverted (mk_dual 2%float 1%float) = mk_dual 0.5%float (-4)%float.
Proof.
  assert (E : inverted (dq 2 1) = mk_dual (qc 1 2) (qc (-4) 1)).
  { rewrite inverted_eq. unfold dq; cbn [m_a m_b]. f_equal; qc_compute. }
  repeat match goal with |- _ /\ _ => split end.
  - unfold inverse_spec, dq; cbn [m_a m_b]. f_equal; qc_compute.
  - exact E.
  - exact E.
  - exact E.
  - intros H. apply (f_equal (fun p => this (m_b p))) in H.
    vm_compute in H. discriminate.
  - vm_compute. reflexivity.
Qed.

(** ** Division by zero *)

(** C5, refuted at [double] operands: (1, 1) / (0, 0) returns (inf, NaN),
    and inverting (0, 1) returns (inf, -0); neither call signals a
    failure. *)
Lemma zero_divisor_returns_silently :
  call_op_div (mk_dual 1%float 1%float) (mk_dual 0%float 0%float)
    = Returned (mk_dual infinity nan) /\
  signals_failure
    (call_op_div (mk_dual 1%float 1%float) (mk_dual 0%float 0%float)) = false /\
  call_inverted (mk_dual 0%float 1%float)
    = Returned (mk_dual infinity (-0)%float) /\
  signals_failure (call_inverted (mk_dual 0%float 1%float)) = false.
Proof. repeat split; vm_compute; reflexivity. Qed.

(** C5, as the code has it.  Division and inversion test nothing and have
    no failure path: for all operands, a zero value component included,
    the call returns; division returns the pair
    (a/c, (b*c - a*d)/(c*c)) formed with the division of [T] itself, and
    inversion returns a pair whose value component is 1/a. *)
Theorem division_and_inversion_never_signal {T : Type} {S : Scalar T}
  (p q : dual T) :
  call_op_div p q =
    Returned (mk_dual (m_a p / m_a q)
                      ((m_b p * m_a q - m_a p * m_b q) / (m_a q * m_a q))) /\
  signals_failure (call_op_div p q) = false /\
  (exists r : dual T, call_inverted p = Returned r /\ m_a r = sone / m_a p) /\
  signals_failure (call_inverted p) = false /\
  signals_failure (call_inverted_free p) = false.
Proof.
  repeat match goal with |- _ /\ _ => split end; try reflexivity.
  exists (inverted p). split; reflexivity.
Qed.

(** ** Power *)

(** C2, at f = (3, 1) and y = (2, 0), the square of x at x = 3.  The
    specification gives (9, 6); [pow] gives (1, 6): its value component is
    the base raised to the derivative component of the exponent. *)
Theorem pow_value_at_3_2 :
  pow_spec (mk_dual 3%R 1%R) (mk_dual 2%R 0%R) = mk_dual 9%R 6%R /\
  pow (mk_dual 3%R 1%R) (mk_dual 2%R 0%R) = mk_dual 1%R 6%R /\
  pow (mk_dual 3%R 1%R) (mk_dual 2%R 0%R)
    <> pow_spec (mk_dual 3%R 1%R) (mk_dual 2%R 0%R) /\
  (forall (T : Type) (S : Scalar T) (M : MathProvider T) (f y : dual T),
     m_a (pow f y) = spow (m_a f) (m_b y)).
Proof.
  assert (H3 : (0 < 3)%R) by lra.
  assert (P0 : Rpower 3 0 = 1%R) by (apply Rpower_O; exact H3).
  assert (P1 : Rpower 3 1 = 3%R) by (apply Rpower_1; exact H3).
  assert (P2 : Rpower 3 2 = 9%R).
  { replace 2%R with (INR 2) by (simpl; lra).
    rewrite Rpower_pow by exact H3. simpl. lra. }
  assert (Espec : pow_spec (mk_dual 3%R 1%R) (mk_dual 2%R 0%R) = mk_dual 9%R 6%R).
  { unfold pow_spec; cbn. rewrite P2. f_equal. lra. }
  assert (Ecode : pow (mk_dual 3%R 1%R) (mk_dual 2%R 0%R) = mk_dual 1%R 6%R).
  { unfold pow; cbn. replace (2 - 1)%R with 1%R by lra.
    rewrite P0, P1. f_equal. lra. }
  repeat match goal with |- _ /\ _ => split end.
  - exact Espec.
  - exact Ecode.
  - rewrite Espec, Ecode. intros E. injection E. lra.
  - reflexivity.
Qed.

(** ** Bessel functions at order 0 *)

(** C3, for every wrapped cylinder function [bessel], every provider and
    every x = (a, b), at [nu = 0.0] of type [double]: the derivative
    component that [calculateBesselFunctions] returns is
    -b * bessel(0, a); the function of order 1 is not consulted.  So the
    derivative component of J0 at (1.0, 1.0) is -J0(1.0).  The sibling for
    the modified functions does consult order 1. *)
Theorem bessel_order0_derivative :
  forall (T : Type) (S : Scalar T) (x : dual T),
    (forall bessel : float -> T -> T,
       calculateBesselFunctions 0%float x bessel =
       mk_dual (bessel 0%float (m_a x)) (- m_b x * bessel 0%float (m_a x))) /\
    (forall P : SpecialProvider float T,
       m_b (cyl_bessel_j 0%float x) = - m_b x * std_cyl_bessel_j 0%float (m_a x) /\
       m_b (cyl_neumann 0%float x) = - m_b x * std_cyl_neumann 0%float (m_a x)) /\
    (forall bessel : float -> T -> T,
       calculateModifiedBesselFunctions 0%float x bessel =
       mk_dual (bessel 0%float (m_a x)) (m_b x * bessel 1%float (m_a x))).
Proof.
  intros T S x. repeat split.
Qed.

(** ** The theorems at rational inputs *)

(** Scenario A of the specification, (1, 1) / (3, 0) = (1/3, 1/3), and
    the quotient-rule example 1 / (2, 1) = (1/2, -1/4). *)
Lemma op_div_quotient_rule_witness :
  (qc 3 1 <> szero /\ qc 2 1 <> szero) /\
  op_div (dq 1 1) (dq 3 0) = mk_dual (qc 1 3) (qc 1 3) /\
  op_div (dual_of sone) (dq 2 1) = mk_dual (qc 1 2) (qc (-1) 4) /\
  op_div_l sone (dq 2 1) = mk_dual (qc 1 2) (qc (-1) 4).
Proof.
  assert (H3 : qc 3 1 <> szero) by (apply (qc_neq 3 0 1 1); reflexivity).
  assert (H2 : qc 2 1 <> szero) by (apply (qc_neq 2 0 1 1); reflexivity).
  split; [split; assumption|].
  destruct (op_div_quotient_rule Qc_FieldLaws
              (qc 1 1) (qc 1 1) (qc 3 1) (qc 0 1) (qc 2 1) H3 H2)
    as (E1 & E2 & E3).
  repeat match goal with |- _ /\ _ => split end.
  - etransitivity; [exact E1 | f_equal; qc_compute].
  - etransitivity; [exact E2 | f_equal; qc_compute].
  - etransitivity; [exact E3 | f_equal; qc_compute].
Defined.

(** Inverting (2, 1) twice, and conjugating it twice. *)
Lemma inversion_conjugation_involutions_witness :
  (m_a (dq 2 1) <> szero /\ forall b : Qc, - - b = b) /\
  inverted (inverted (dq 2 1)) = dq 2 1 /\
  inverted_free (snd (inverted_free (dq 2 1))) = (dq 2 1, dq 2 1) /\
  conjugated (conjugated (dq 2 1)) = dq 2 1.
Proof.
  assert (H2 : m_a (dq 2 1) <> szero) by (apply (qc_neq 2 0 1 1); reflexivity).
  assert (Hopp : forall b : Qc, - - b = b) by exact Qcopp_involutive.
  split; [split; assumption|].
  destruct (inversion_conjugation_involutions (dq 2 1))
    as (Hinv & Hconj & _).
  destruct (Hinv Qc_FieldLaws H2) as (E1 & _ & E3).
  destruct (Hconj Hopp) as (E4 & _).
  repeat match goal with |- _ /\ _ => split end; assumption.
Defined.

(** (1, 2) < (1, 3): equal value components, the derivative components
    decide. *)
Lemma comparison_operators_lexicographic_witness :
  op_lt (dq 1 2) (dq 1 3) = true /\
  (op_le (dq 1 2) (dq 1 3) = true <-> ~ lex_lt (dq 1 3) (dq 1 2)) /\
  (op_ne (dq 1 2) (dq 1 3) = true <-> dq 1 2 <> dq 1 3).
Proof.
  destruct (comparison_operators_lexicographic Qc_OrderLaws (dq 1 2) (dq 1 3))
    as (_ & Hlt & Hne & _ & _ & _ & Hle & _).
  repeat match goal with |- _ /\ _ => split end.
  - apply Hlt. right. split; reflexivity.
  - exact Hle.
  - exact Hne.
Defined.

(** Over the rationals, (1, 0) * ID_Mul() is (0, 0). *)
Lemma ID_Mul_is_zero_not_identity_witness :
  op_mul (dq 1 0) ID_Mul = Zero /\
  exists p : dual Qc, op_mul p ID_Mul <> p.
Proof.
  destruct (ID_Mul_is_zero_not_identity Qc_FieldLaws) as (_ & _ & _ & Hz & Hex).
  split; [apply Hz | exact Hex].
Defined.

(** ** Remarks on the scope of the theorems *)

(** Over [double] the field laws hold up to rounding only: inverting
    (49, 1) twice gives a pair that [==] tells from (49, 1). *)
Remark double_inversion_rounds :
  op_eq (inverted (inverted (mk_dual 49%float 1%float)))
        (mk_dual 49%float 1%float) = false.
Proof. vm_compute. reflexivity. Qed.

(** With the object as its own right operand, [x /= x] at (2, 1) leaves
    (1, -1/2), whereas [x / x] is (1, 0). *)
Remark div_assign_self_at_2_1 :
  div_assign_self (dq 2 1) = mk_dual (qc 1 1) (qc (-1) 2) /\
  op_div (dq 2 1) (dq 2 1) = mk_dual (qc 1 1) (qc 0 1).
Proof.
  split.
  - unfold div_assign_self, set_a, set_b, dq; cbn [m_a m_b]. f_equal; qc_compute.
  - rewrite op_div_eq. unfold dq; cbn [m_a m_b]. f_equal; qc_compute.
Qed.

(** ** The worked examples of the specification *)

(** Scenario A: p = (1, 1), q = (3, 0). *)
Example scenario_A_sum_product :
  op_add (dq 1 1) (dq 3 0) = dq 4 1 /\ op_mul (dq 1 1) (dq 3 0) = dq 3 3.
Proof.
  split; [unfold op_add, add_assign | rewrite op_mul_eq];
    unfold set_a, set_b, dq; cbn [m_a m_b]; f_equal; qc_compute.
Qed.

(** Product rule: (3, 1) * (3, 1) = (9, 6), also over [double]. *)
Example product_rule_at_3 :
  op_mul (dq 3 1) (dq 3 1) = dq 9 6 /\
  op_mul (mk_dual 3%float 1%float) (mk_dual 3%float 1%float)
    = mk_dual 9%float 6%float.
Proof.
  split.
  - rewrite op_mul_eq. unfold dq; cbn [m_a m_b]. f_equal; qc_compute.
  - vm_compute. reflexivity.
Qed.

(** * Further properties of the code *)

(** ** The algebra of dual numbers over a field *)

Section Algebra.
Context {T : Type} {S : Scalar T}.
Hypothesis F : FieldLaws T.

Add Field algebra_field : (scalar_field_theory F).

Ltac dual_unfold :=
  cbv beta iota zeta delta
    [op_add op_sub op_mul op_div op_add_r op_add_l op_sub_r op_sub_l
     op_mul_r op_mul_l op_div_r op_div_l
     add_assign sub_assign mul_assign div_assign
     add_assign_scalar sub_assign_scalar mul_assign_scalar div_assign_scalar
     neg pos conjugated conjugate pre_inc pre_dec post_inc post_dec
     dual_of ID_Add Zero set_a set_b m_a m_b fst snd] in *.

Ltac dual_ring :=
  repeat match goal with p : dual T |- _ => destruct p end;
  dual_unfold; try (f_equal; ring).

Ltac dual_field :=
  repeat match goal with p : dual T |- _ => destruct p end;
  dual_unfold; f_equal; field;
  repeat split;
  solve [ assumption | exact (sone_neq_szero F) ].

(** X1. Addition makes the dual numbers an abelian group: [operator+] is
    commutative and associative, [ID_Add()] (that is [Zero()]) is neutral,
    unary minus gives the opposite, unary plus changes nothing, and
    [operator-] adds the opposite. *)
Theorem addition_abelian_group (p q r : dual T) :
  op_add p q = op_add q p /\
  op_add (op_add p q) r = op_add p (op_add q r) /\
  op_add p ID_Add = p /\
  op_add ID_Add p = p /\
  op_add p (neg p) = Zero /\
  neg (neg p) = p /\
  pos p = p /\
  op_sub p q = op_add p (neg q) /\
  op_sub p p = Zero.
Proof.
  repeat match goal with |- _ /\ _ => split end; dual_ring.
Qed.

(** X2. Multiplication makes them a commutative ring with unit (1, 0):
    [operator*] is commutative and associative, distributes over
    [operator+] and [operator-], has the constant 1 as neutral element and
    is absorbed by [Zero()]. *)
Theorem multiplication_commutative_ring (p q r : dual T) :
  op_mul p q = op_mul q p /\
  op_mul (op_mul p q) r = op_mul p (op_mul q r) /\
  op_mul p (op_add q r) = op_add (op_mul p q) (op_mul p r) /\
  op_mul p (op_sub q r) = op_sub (op_mul p q) (op_mul p r) /\
  op_mul p (dual_of sone) = p /\
  op_mul (dual_of sone) p = p /\
  op_mul p Zero = Zero /\
  op_mul (neg p) q = neg (op_mul p q).
Proof.
  repeat match goal with |- _ /\ _ => split end; dual_ring.
Qed.

(** X3. The infinitesimal unit squares to zero: the product of two pure
    infinitesimals (0, b) and (0, d) is [Zero()], so a pure infinitesimal
    is a zero divisor; and every dual number is its value part plus its
    infinitesimal part. *)
Theorem epsilon_squared_is_zero (a b d : T) :
  op_mul (mk_dual szero b) (mk_dual szero d) = Zero /\
  op_mul (mk_dual szero sone) (mk_dual szero sone) = Zero /\
  op_add (dual_of a) (mk_dual szero b) = mk_dual a b /\
  op_add (dual_of a) (op_mul_l b (mk_dual szero sone)) = mk_dual a b /\
  op_mul (mk_dual a b) (mk_dual szero d) = mk_dual szero (a * d).
Proof.
  repeat match goal with |- _ /\ _ => split end; dual_ring.
Qed.

(** X4. In exact field arithmetic, division undoes multiplication: when
    the value component of q is not 0, (p * q) / q = p and
    (p / q) * q = p, q / q is the constant 1, and 1 / q, taken with
    [operator/], is the inverse of q for [operator*]. *)
Theorem division_inverts_multiplication (p q : dual T) :
  m_a q <> szero ->
  op_div (op_mul p q) q = p /\
  op_mul (op_div p q) q = p /\
  op_div q q = dual_of sone /\
  op_mul q (op_div_l sone q) = dual_of sone /\
  op_div p q = op_mul p (op_div_l sone q).
Proof.
  intros Hq.
  repeat match goal with |- _ /\ _ => split end; dual_field.
Qed.

(** X5. In exact field arithmetic, the overloads that take a scalar
    operand agree with lifting the scalar to the constant (k, 0): for
    [+], [-] and [*] on either side, for a scalar divided by a dual
    number, and for a dual number divided by a scalar that is not 0. *)
Theorem scalar_overloads_lift (p : dual T) (k : T) :
  op_add_r p k = op_add p (dual_of k) /\
  op_add_l k p = op_add (dual_of k) p /\
  op_sub_r p k = op_sub p (dual_of k) /\
  op_sub_l k p = op_sub (dual_of k) p /\
  op_mul_r p k = op_mul p (dual_of k) /\
  op_mul_l k p = op_mul (dual_of k) p /\
  op_div_l k p = op_div (dual_of k) p /\
  (k <> szero -> op_div_r p k = op_div p (dual_of k)).
Proof.
  repeat match goal with |- _ /\ _ => split end;
    try reflexivity; try solve [dual_ring].
  intros Hk. dual_field.
Qed.

(** X6. Conjugation respects the arithmetic: the conjugate of a sum,
    difference or product is the sum, difference or product of the
    conjugates, constants are their own conjugates, and p times its
    conjugate is the constant a * a. *)
Theorem conjugation_homomorphism (p q : dual T) (k : T) :
  conjugated (op_add p q) = op_add (conjugated p) (conjugated q) /\
  conjugated (op_sub p q) = op_sub (conjugated p) (conjugated q) /\
  conjugated (op_mul p q) = op_mul (conjugated p) (conjugated q) /\
  conjugated (dual_of k) = dual_of k /\
  op_mul p (conjugated p) = dual_of (m_a p * m_a p) /\
  op_add p (conjugated p) = dual_of (m_a p + m_a p).
Proof.
  repeat match goal with |- _ /\ _ => split end; dual_ring.
Qed.

(** X7. In exact field arithmetic, increment and decrement undo each
    other, in prefix and in postfix form, and a compound assignment is
    undone by the opposite one. *)
Theorem increments_and_assignments_round_trip (p q : dual T) :
  pre_dec (pre_inc p) = p /\
  pre_inc (pre_dec p) = p /\
  snd (post_dec (snd (post_inc p))) = p /\
  fst (post_dec (snd (post_inc p))) = pre_inc p /\
  sub_assign (add_assign p q) q = p /\
  add_assign (sub_assign p q) q = p /\
  pre_inc p = op_add_r p sone.
Proof.
  repeat match goal with |- _ /\ _ => split end; dual_ring.
Qed.

End Algebra.

(** ** The order on dual numbers *)

Section OrderProperties.
Context {T : Type} {C : Compare T}.
Hypothesis O : OrderLaws T.

Lemma op_le_iff (p q : dual T) : op_le p q = true <-> lex_lt p q \/ p = q.
Proof.
  unfold op_le. rewrite orb_true_iff, (op_eq_iff O), (op_lt_iff O). tauto.
Qed.

Lemma op_eq_sym (p q : dual T) : op_eq p q = op_eq q p.
Proof.
  apply eq_true_iff_eq. rewrite !(op_eq_iff O). split; congruence.
Qed.

(** X8. Over a totally ordered value type, [<] on dual numbers is a strict
    total order and [<=] the matching total order: [<] is irreflexive,
    asymmetric and transitive; [<=] is reflexive, antisymmetric, transitive
    and total; [>=] is [<=] with the operands exchanged, [>] is the
    negation of [<=], and [!=] is symmetric. *)
Theorem comparison_total_order (p q r : dual T) :
  op_lt p p = false /\
  (op_lt p q = true -> op_lt q p = false) /\
  (op_lt p q = true -> op_lt q r = true -> op_lt p r = true) /\
  op_le p p = true /\
  (op_le p q = true -> op_le q p = true -> p = q) /\
  (op_le p q = true -> op_le q r = true -> op_le p r = true) /\
  (op_le p q = true \/ op_le q p = true) /\
  op_ge p q = op_le q p /\
  op_gt p q = negb (op_le p q) /\
  op_ne p q = op_ne q p.
Proof.
  pose proof (lex_lt_irrefl O) as Hirr.
  pose proof (lex_lt_asym O) as Hasym.
  pose proof (lex_lt_trans O) as Htrans.
  repeat match goal with |- _ /\ _ => split end.
  - apply not_true_iff_false. rewrite (op_lt_iff O). apply Hirr.
  - intros H. apply not_true_iff_false. rewrite (op_lt_iff O) in *.
    apply Hasym. exact H.
  - rewrite !(op_lt_iff O). apply Htrans.
  - apply op_le_iff. right. reflexivity.
  - rewrite !op_le_iff. intros [H1 | H1] [H2 | H2]; try congruence.
    destruct (Hasym _ _ H1 H2).
  - rewrite !op_le_iff. intros [H1 | ->] [H2 | ->]; auto.
    left. exact (Htrans _ _ _ H1 H2).
  - rewrite !op_le_iff.
    destruct (lex_lt_total O p q) as [H | [H | H]]; auto.
  - unfold op_ge, op_gt, op_le. rewrite (op_eq_sym p q). reflexivity.
  - unfold op_gt. apply eq_true_iff_eq.
    rewrite negb_true_iff, <- not_true_iff_false, op_le_iff, (op_lt_iff O).
    split.
    + intros H [K | ->]; [exact (Hasym _ _ H K) | exact (Hirr _ H)].
    + intros H. destruct (lex_lt_total O p q) as [K | [K | K]]; tauto.
  - unfold op_ne. rewrite (op_eq_sym p q). reflexivity.
Qed.

End OrderProperties.

(** ** What a function does with the derivative component *)

Section SeedLinearity.
Context {T : Type} {S : Scalar T} {M : MathProvider T} {E : ElementaryProvider T}.
Context {N : Type} {SN : Scalar N} {CN : Compare N} {P : SpecialProvider N T}.
Hypothesis F : FieldLaws T.

Add Field seed_field : (scalar_field_theory F).

Lemma sdiv_smul_l (k b y : T) : (k * b) / y = k * (b / y).
Proof.
  rewrite (Fdiv_def (scalar_field_theory F) (k * b) y).
  rewrite (Fdiv_def (scalar_field_theory F) b y). ring.
Qed.

Lemma sdiv_sadd_l (b c y : T) : (b + c) / y = b / y + c / y.
Proof.
  rewrite (Fdiv_def (scalar_field_theory F) (b + c) y).
  rewrite (Fdiv_def (scalar_field_theory F) b y).
  rewrite (Fdiv_def (scalar_field_theory F) c y). ring.
Qed.

Lemma sdiv_sopp_l (b y : T) : (- b) / y = - (b / y).
Proof.
  rewrite (Fdiv_def (scalar_field_theory F) (- b) y).
  rewrite (Fdiv_def (scalar_field_theory F) b y). ring.
Qed.

Lemma seed_linear_constant (G : dual T -> dual T) (a : T) :
  seed_linear_at G a -> m_b (G (dual_of a)) = szero.
Proof.
  intros H. destruct (H szero szero szero) as (_ & Hk & _).
  unfold dual_of. replace (szero * szero) with (szero : T) in Hk by ring.
  rewrite Hk. ring.
Qed.

Ltac seed_unfold :=
  cbv beta iota zeta delta
    [neg conjugated set_a set_b log pow_scalar_exp pow_scalar_base
     cmath.sqrt cmath.cbrt cmath.sin cmath.cos cmath.tan cmath.asin
     cmath.acos cmath.atan cmath.sinh cmath.cosh cmath.tanh cmath.asinh
     cmath.acosh cmath.atanh cmath.exp cmath.exp2 cmath.expm1 cmath.log1p
     cmath.log10 cyl_bessel_j cyl_neumann cyl_bessel_i
     cyl_bessel_k calculateBesselFunctions calculateModifiedBesselFunctions
     m_a m_b].

Ltac seed_solve :=
  intros b c k; seed_unfold;
  repeat match goal with |- context [if ?t then _ else _] => destruct t end;
  cbv beta iota zeta delta [m_a m_b];
  repeat match goal with |- _ /\ _ => split end;
  rewrite ?sdiv_sopp_l, ?sdiv_smul_l, ?sdiv_sadd_l;
  solve [ reflexivity | ring ].

(** X9. In exact field arithmetic, with providers and a wrapped function
    that return a value for every order and argument: each function G of
    one dual argument, at a value component a where the quantity its body
    divides by is not 0, computes its value component from a alone, and
    its derivative component is linear (homogeneous and additive) in the
    derivative component of the argument; so it sends the constant (a, 0)
    to a result with derivative component 0.  The functions are unary
    minus and [conjugated], the elementary functions [sqrt] to [log10],
    the powers with a scalar base or exponent, and the Bessel functions. *)
Theorem derivative_component_linear
  (nu : N) (bessel : N -> T -> T) (y f : T)
  (G : dual T -> dual T) (divisor : T -> T) (a : T) :
  In (G, divisor) (unary_functions nu bessel y f) ->
  divisor a <> szero ->
  seed_linear_at G a /\ m_b (G (dual_of a)) = szero.
Proof.
  intros HG _.
  assert (HL : seed_linear_at G a).
  { unfold unary_functions in HG. cbn [In] in HG.
    repeat (destruct HG as [HE | HG]; [injection HE as <- _; seed_solve|]).
    destruct HG. }
  split; [exact HL|].
  apply seed_linear_constant. exact HL.
Qed.

End SeedLinearity.

(** ** The value component of [cbrt] *)

Section CubeRoot.
Context {T : Type} {S : Scalar T} {E : ElementaryProvider T}.
Hypothesis F : FieldLaws T.

Add Field cbrt_field : (scalar_field_theory F).


End CubeRoot.

(** ** Forward-mode differentiation over the reals *)

Section Soundness.

Lemma derivable_pt_lim_eq (g : R -> R) (t l l' : R) :
  derivable_pt_lim g t l -> l = l' -> derivable_pt_lim g t l'.
Proof. intros H <-. exact H. Qed.

Lemma tracks_intro (g : R -> R) (t v d l : R) :
  v = g t -> derivable_pt_lim g t l -> l = d -> tracks g t (mk_dual v d).
Proof. intros -> H <-. split; [reflexivity | exact H]. Qed.

(** The seed (t, 1) carries the identity, and a constant carries itself. *)
Lemma tracks_variable (t : R) : tracks (fun s => s) t (mk_dual t 1%R).
Proof. split; [reflexivity | apply derivable_pt_lim_id]. Qed.

Lemma tracks_constant (c t : R) : tracks (fun _ => c) t (dual_of c).
Proof. split; [reflexivity | apply derivable_pt_lim_const]. Qed.

(** The seed multiplied by itself carries the square. *)
Lemma tracks_square (t : R) :
  tracks (fun s => s * s)%R t (op_mul (mk_dual t 1%R) (mk_dual t 1%R)).
Proof.
  eapply tracks_intro.
  - reflexivity.
  - exact (derivable_pt_lim_mult _ _ _ _ _
             (derivable_pt_lim_id t) (derivable_pt_lim_id t)).
  - unfold id. cbn. ring.
Qed.

(** The chain rule, for a function [phi] of the provider whose derivative
    at the value component is [l]. *)
Lemma tracks_comp (phi : R -> R) (l : R) (g : R -> R) (t : R) (x : dual R) (d : R) :
  tracks g t x ->
  derivable_pt_lim phi (g t) l ->
  (m_b x * l = d)%R ->
  tracks (fun s => phi (g s)) t (mk_dual (phi (m_a x)) d).
Proof.
  intros [Hv Hd] Hphi <-.
  apply tracks_intro with (l := (l * m_b x)%R).
  - rewrite Hv. reflexivity.
  - exact (derivable_pt_lim_comp g phi t (m_b x) l Hd Hphi).
  - ring.
Qed.

(** X11. The arithmetic operators differentiate: if x carries g and y
    carries h at t, then x + y, x - y, x * y and -x carry g + h, g - h,
    g * h and -g there, and so do the overloads with a scalar operand for
    k + g, g - k, k - g and k * g. *)
Theorem arithmetic_differentiates (g h : R -> R) (t k : R) (x y : dual R) :
  tracks g t x ->
  tracks h t y ->
  tracks (fun s => g s + h s)%R t (op_add x y) /\
  tracks (fun s => g s - h s)%R t (op_sub x y) /\
  tracks (fun s => g s * h s)%R t (op_mul x y) /\
  tracks (fun s => - g s)%R t (neg x) /\
  tracks (fun s => g s + k)%R t (op_add_r x k) /\
  tracks (fun s => k + g s)%R t (op_add_l k x) /\
  tracks (fun s => g s - k)%R t (op_sub_r x k) /\
  tracks (fun s => k - g s)%R t (op_sub_l k x) /\
  tracks (fun s => g s * k)%R t (op_mul_r x k) /\
  tracks (fun s => k * g s)%R t (op_mul_l k x).
Proof.
  destruct x as [a b], y as [c d]. intros [Ha Hb] [Hc Hd].
  cbn [m_a m_b] in *. subst a c.
  pose proof (derivable_pt_lim_const k t) as Hk.
  repeat match goal with |- _ /\ _ => split end;
    cbv [op_add op_sub op_mul neg op_add_r op_add_l op_sub_r op_sub_l
         op_mul_r op_mul_l add_assign sub_assign mul_assign
         add_assign_scalar sub_assign_scalar mul_assign_scalar dual_of
         set_a set_b m_a m_b sadd ssub smul sopp szero R_Scalar].
  - eapply tracks_intro; [first [reflexivity | unfold fct_cte; ring] | exact (derivable_pt_lim_plus _ _ _ _ _ Hb Hd) | unfold fct_cte; ring].
  - eapply tracks_intro; [first [reflexivity | unfold fct_cte; ring] | exact (derivable_pt_lim_minus _ _ _ _ _ Hb Hd) | unfold fct_cte; ring].
  - eapply tracks_intro; [first [reflexivity | unfold fct_cte; ring] | exact (derivable_pt_lim_mult _ _ _ _ _ Hb Hd) | unfold fct_cte; ring].
  - eapply tracks_intro; [first [reflexivity | unfold fct_cte; ring] | exact (derivable_pt_lim_opp _ _ _ Hb) | unfold fct_cte; ring].
  - eapply tracks_intro; [first [reflexivity | unfold fct_cte; ring] | exact (derivable_pt_lim_plus _ _ _ _ _ Hb Hk) | unfold fct_cte; ring].
  - eapply tracks_intro; [first [reflexivity | unfold fct_cte; ring] | exact (derivable_pt_lim_plus _ _ _ _ _ Hk Hb) | unfold fct_cte; ring].
  - eapply tracks_intro; [first [reflexivity | unfold fct_cte; ring] | exact (derivable_pt_lim_minus _ _ _ _ _ Hb Hk) | unfold fct_cte; ring].
  - eapply tracks_intro; [first [reflexivity | unfold fct_cte; ring] | exact (derivable_pt_lim_minus _ _ _ _ _ Hk Hb) | unfold fct_cte; ring].
  - eapply tracks_intro; [first [reflexivity | unfold fct_cte; ring] | exact (derivable_pt_lim_mult _ _ _ _ _ Hb Hk) | unfold fct_cte; ring].
  - eapply tracks_intro; [first [reflexivity | unfold fct_cte; ring] | exact (derivable_pt_lim_mult _ _ _ _ _ Hk Hb) | unfold fct_cte; ring].
Qed.

(** X12. Division differentiates: if x carries g and y carries h at t and
    h(t) is not 0, then x / y carries g / h; likewise x / k for a scalar
    k that is not 0, and k / y. *)
Theorem division_differentiates (g h : R -> R) (t k : R) (x y : dual R) :
  tracks g t x ->
  tracks h t y ->
  h t <> 0%R ->
  tracks (fun s => g s / h s)%R t (op_div x y) /\
  tracks (fun s => k / h s)%R t (op_div_l k y) /\
  (k <> 0%R -> tracks (fun s => g s / k)%R t (op_div_r x k)).
Proof.
  destruct x as [a b], y as [c d]. intros [Ha Hb] [Hc Hd] Hnz.
  cbn [m_a m_b] in *. subst a c.
  pose proof (derivable_pt_lim_const k t) as Hk.
  repeat match goal with |- _ /\ _ => split end; [ | | intros Hk0];
    cbv [op_div op_div_l op_div_r div_assign div_assign_scalar dual_of
         set_a set_b m_a m_b sadd ssub smul sdiv sopp szero R_Scalar].
  - eapply tracks_intro;
      [reflexivity | exact (derivable_pt_lim_div _ _ _ _ _ Hb Hd Hnz) | ].
    unfold Rsqr. field. exact Hnz.
  - eapply tracks_intro;
      [reflexivity | exact (derivable_pt_lim_div _ _ _ _ _ Hk Hd Hnz) | ].
    unfold Rsqr, fct_cte. field. exact Hnz.
  - eapply tracks_intro;
      [reflexivity | exact (derivable_pt_lim_div _ _ _ _ _ Hb Hk Hk0) | ].
    unfold Rsqr, fct_cte. field. exact Hk0.
Qed.

(** *** Derivatives of the real functions behind the provider *)

Lemma derivable_pt_lim_tan (y : R) :
  Rtrigo_def.cos y <> 0%R ->
  derivable_pt_lim Rtrigo1.tan y (/ (Rtrigo_def.cos y * Rtrigo_def.cos y))%R.
Proof.
  intros Hc.
  eapply derivable_pt_lim_eq.
  - exact (derivable_pt_lim_div _ _ _ _ _
             (derivable_pt_lim_sin y) (derivable_pt_lim_cos y) Hc).
  - pose proof (sin2_cos2 y) as H. unfold Rsqr in *.
    replace (Rtrigo_def.cos y * Rtrigo_def.cos y
             - - Rtrigo_def.sin y * Rtrigo_def.sin y)%R with 1%R by lra.
    field. exact Hc.
Qed.

Lemma cosh_pos (y : R) : (0 < Rtrigo_def.cosh y)%R.
Proof.
  unfold Rtrigo_def.cosh.
  pose proof (exp_pos y). pose proof (exp_pos (- y)). lra.
Qed.

Lemma cosh2_sinh2 (y : R) :
  (Rtrigo_def.cosh y * Rtrigo_def.cosh y
   - Rtrigo_def.sinh y * Rtrigo_def.sinh y = 1)%R.
Proof.
  unfold Rtrigo_def.cosh, Rtrigo_def.sinh.
  assert (H : (Rtrigo_def.exp y * Rtrigo_def.exp (- y) = 1)%R).
  { rewrite <- exp_plus. replace (y + - y)%R with 0%R by ring. apply exp_0. }
  rewrite <- H. field.
Qed.

Lemma derivable_pt_lim_tanh (y : R) :
  derivable_pt_lim Rtrigo_def.tanh y
    (/ (Rtrigo_def.cosh y * Rtrigo_def.cosh y))%R.
Proof.
  assert (Hc : Rtrigo_def.cosh y <> 0%R) by (pose proof (cosh_pos y); lra).
  eapply derivable_pt_lim_eq.
  - exact (derivable_pt_lim_div _ _ _ _ _
             (derivable_pt_lim_sinh y) (derivable_pt_lim_cosh y) Hc).
  - unfold Rsqr. rewrite cosh2_sinh2. field. exact Hc.
Qed.

Lemma derivable_pt_lim_asin (y : R) :
  (-1 < y < 1)%R ->
  derivable_pt_lim Ratan.asin y (/ R_sqrt.sqrt (1 - y * y))%R.
Proof.
  intros Hy.
  eapply derivable_pt_lim_eq.
  - exact (derive_pt_eq_1 _ _ _ _ (derive_pt_asin y Hy)).
  - unfold Rsqr, Rdiv. ring.
Qed.

Lemma derivable_pt_lim_acos (y : R) :
  (-1 < y < 1)%R ->
  derivable_pt_lim Ratan.acos y (- / R_sqrt.sqrt (1 - y * y))%R.
Proof.
  intros Hy.
  eapply derivable_pt_lim_eq.
  - exact (derive_pt_eq_1 _ _ _ _ (derive_pt_acos y Hy)).
  - unfold Rsqr, Rdiv. ring.
Qed.

(** [s |-> f^s] for a positive base [f]. *)
Lemma derivable_pt_lim_Rpower_exponent (f y : R) :
  derivable_pt_lim (Rpower f) y (Rpower f y * ln f)%R.
Proof.
  unfold Rpower.
  eapply derivable_pt_lim_eq.
  - exact (derivable_pt_lim_comp (fun s => s * ln f)%R Rtrigo_def.exp y _ _
             (derivable_pt_lim_scal_right _ _ _ (ln f) (derivable_pt_lim_id y))
             (derivable_pt_lim_exp (y * ln f))).
  - ring.
Qed.

Lemma derivable_pt_lim_atanh (y : R) :
  (-1 < y < 1)%R ->
  derivable_pt_lim (fun x => / 2 * ln ((1 + x) / (1 - x)))%R y
    (/ (1 - y * y))%R.
Proof.
  intros Hy.
  assert (Hm : (1 - y <> 0)%R) by lra.
  assert (Hq : (0 < (1 + y) / (1 - y))%R).
  { apply Rdiv_lt_0_compat; lra. }
  assert (Hn : derivable_pt_lim (fun x => 1 + x)%R y 1%R).
  { eapply derivable_pt_lim_eq.
    - exact (derivable_pt_lim_plus _ _ _ _ _
               (derivable_pt_lim_const 1 y) (derivable_pt_lim_id y)).
    - ring. }
  assert (Hd : derivable_pt_lim (fun x => 1 - x)%R y (-1)%R).
  { eapply derivable_pt_lim_eq.
    - exact (derivable_pt_lim_minus _ _ _ _ _
               (derivable_pt_lim_const 1 y) (derivable_pt_lim_id y)).
    - ring. }
  pose proof (derivable_pt_lim_div _ _ _ _ _ Hn Hd Hm) as Hdiv.
  pose proof (derivable_pt_lim_comp _ ln y _ _ Hdiv
                (derivable_pt_lim_ln _ Hq)) as Hln.
  assert (Hprod : (0 < (1 - y) * (1 + y))%R)
    by (apply Rmult_lt_0_compat; lra).
  eapply derivable_pt_lim_eq.
  - exact (derivable_pt_lim_scal _ (/ 2)%R _ _ Hln).
  - unfold Rsqr. field. repeat split; lra.
Qed.

Lemma derivable_pt_lim_acosh (y : R) :
  (1 < y)%R ->
  derivable_pt_lim (fun x => ln (x + R_sqrt.sqrt (x * x - 1)))%R y
    (/ R_sqrt.sqrt (y * y - 1))%R.
Proof.
  intros Hy.
  assert (Hr : (0 < y * y - 1)%R) by nra.
  assert (Hs : (0 < R_sqrt.sqrt (y * y - 1))%R) by (apply sqrt_lt_R0; exact Hr).
  assert (Hin : derivable_pt_lim (fun x => x * x - 1)%R y (y + y)%R).
  { eapply derivable_pt_lim_eq.
    - exact (derivable_pt_lim_minus _ _ _ _ _
               (derivable_pt_lim_mult _ _ _ _ _
                  (derivable_pt_lim_id y) (derivable_pt_lim_id y))
               (derivable_pt_lim_const 1 y)).
    - unfold id. ring. }
  pose proof (derivable_pt_lim_comp _ R_sqrt.sqrt y _ _ Hin
                (derivable_pt_lim_sqrt _ Hr)) as Hsq.
  pose proof (derivable_pt_lim_plus _ _ _ _ _ (derivable_pt_lim_id y) Hsq)
    as Hsum.
  assert (Hpos : (0 < y + R_sqrt.sqrt (y * y - 1))%R) by lra.
  eapply derivable_pt_lim_eq.
  - exact (derivable_pt_lim_comp _ ln y _ _ Hsum (derivable_pt_lim_ln _ Hpos)).
  - unfold id. field. split; lra.
Qed.

Lemma derivable_pt_lim_atan' (y : R) :
  derivable_pt_lim Ratan.atan y (/ (1 + y * y))%R.
Proof.
  eapply derivable_pt_lim_eq; [apply derivable_pt_lim_atan|].
  f_equal. ring.
Qed.

Lemma derivable_pt_lim_asinh (y : R) :
  derivable_pt_lim arcsinh y (/ R_sqrt.sqrt (1 + y * y))%R.
Proof.
  eapply derivable_pt_lim_eq; [apply derivable_pt_lim_arcsinh|].
  do 2 f_equal. ring.
Qed.

Lemma derivable_pt_lim_sqrt' (y : R) :
  (0 < y)%R ->
  derivable_pt_lim R_sqrt.sqrt y (/ (R_sqrt.sqrt y + R_sqrt.sqrt y))%R.
Proof.
  intros Hy.
  eapply derivable_pt_lim_eq; [apply derivable_pt_lim_sqrt; exact Hy|].
  f_equal. ring.
Qed.

Lemma derivable_pt_lim_log1p (y : R) :
  (0 < 1 + y)%R ->
  derivable_pt_lim (fun x => ln (1 + x))%R y (/ (1 + y))%R.
Proof.
  intros Hy.
  eapply derivable_pt_lim_eq.
  - exact (derivable_pt_lim_comp (fun x => 1 + x)%R ln y _ _
             (derivable_pt_lim_plus _ _ _ _ _
                (derivable_pt_lim_const 1 y) (derivable_pt_lim_id y))
             (derivable_pt_lim_ln _ Hy)).
  - ring.
Qed.

Lemma derivable_pt_lim_expm1 (y : R) :
  derivable_pt_lim (fun x => Rtrigo_def.exp x - 1)%R y (Rtrigo_def.exp y).
Proof.
  eapply derivable_pt_lim_eq.
  - exact (derivable_pt_lim_minus _ _ _ _ _
             (derivable_pt_lim_exp y) (derivable_pt_lim_const 1 y)).
  - ring.
Qed.

(** The chain rule at a dual number given by its components. *)
Lemma tracks_chain (phi : R -> R) (l : R) (g : R -> R) (t a b d : R) :
  tracks g t (mk_dual a b) ->
  derivable_pt_lim phi a l ->
  (b * l = d)%R ->
  tracks (fun s => phi (g s)) t (mk_dual (phi a) d).
Proof.
  intros H Hphi Hd.
  assert (Ha : a = g t) by (destruct H as [Ha _]; exact Ha).
  rewrite Ha in Hphi.
  pose proof (tracks_comp phi l g t (mk_dual a b) d H Hphi Hd) as K.
  exact K.
Qed.

Ltac elementary_unfold :=
  cbv [cmath.sqrt cmath.sin cmath.cos cmath.tan cmath.asin cmath.acos
       cmath.atan cmath.sinh cmath.cosh cmath.tanh cmath.asinh cmath.acosh
       cmath.atanh cmath.exp cmath.expm1 cmath.log1p log pow_scalar_exp
       pow_scalar_base m_a m_b
       ssqrt ssin scos stan sasin sacos satan ssinh scosh stanh sasinh
       sacosh satanh sexp sexpm1 slog1p slog spow
       sadd ssub smul sdiv sopp sone szero
       R_ElementaryProvider R_MathProvider R_Scalar].

Ltac chain phi l H :=
  eapply (tracks_chain phi l); [exact H | | unfold Rdiv; try ring].

(** X13. The trigonometric functions differentiate: if x carries g at t,
    then [sin(x)] and [cos(x)] carry sin o g and cos o g there, and
    [tan(x)] carries tan o g when cos(g(t)) is not 0. *)
Theorem trigonometric_functions_differentiate (g : R -> R) (t : R) (x : dual R) :
  tracks g t x ->
  tracks (fun s => Rtrigo_def.sin (g s)) t (cmath.sin x) /\
  tracks (fun s => Rtrigo_def.cos (g s)) t (cmath.cos x) /\
  (Rtrigo_def.cos (g t) <> 0%R ->
   tracks (fun s => Rtrigo1.tan (g s)) t (cmath.tan x)).
Proof.
  destruct x as [a b]. intros H.
  assert (Ha : a = g t) by (destruct H as [Ha _]; exact Ha).
  repeat match goal with |- _ /\ _ => split end; elementary_unfold.
  - chain Rtrigo_def.sin (Rtrigo_def.cos a) H. apply derivable_pt_lim_sin.
  - chain Rtrigo_def.cos (- Rtrigo_def.sin a)%R H. apply derivable_pt_lim_cos.
  - intros Hc. rewrite <- Ha in Hc.
    chain Rtrigo1.tan (/ (Rtrigo_def.cos a * Rtrigo_def.cos a))%R H.
    apply derivable_pt_lim_tan. exact Hc.
Qed.

(** X14. The inverse trigonometric functions differentiate: [atan(x)]
    carries atan o g, and [asin(x)], [acos(x)] carry asin o g and
    acos o g when -1 < g(t) < 1. *)
Theorem inverse_trigonometric_functions_differentiate
  (g : R -> R) (t : R) (x : dual R) :
  tracks g t x ->
  tracks (fun s => Ratan.atan (g s)) t (cmath.atan x) /\
  ((-1 < g t < 1)%R ->
   tracks (fun s => Ratan.asin (g s)) t (cmath.asin x) /\
   tracks (fun s => Ratan.acos (g s)) t (cmath.acos x)).
Proof.
  destruct x as [a b]. intros H.
  assert (Ha : a = g t) by (destruct H as [Ha _]; exact Ha).
  split; [| intros Hr; rewrite <- Ha in Hr; split]; elementary_unfold.
  - chain Ratan.atan (/ (1 + a * a))%R H. apply derivable_pt_lim_atan'.
  - chain Ratan.asin (/ R_sqrt.sqrt (1 - a * a))%R H.
    apply derivable_pt_lim_asin. exact Hr.
  - chain Ratan.acos (- / R_sqrt.sqrt (1 - a * a))%R H.
    apply derivable_pt_lim_acos. exact Hr.
Qed.

(** X15. The hyperbolic functions differentiate: [sinh(x)], [cosh(x)] and
    [tanh(x)] carry sinh o g, cosh o g and tanh o g. *)
Theorem hyperbolic_functions_differentiate (g : R -> R) (t : R) (x : dual R) :
  tracks g t x ->
  tracks (fun s => Rtrigo_def.sinh (g s)) t (cmath.sinh x) /\
  tracks (fun s => Rtrigo_def.cosh (g s)) t (cmath.cosh x) /\
  tracks (fun s => Rtrigo_def.tanh (g s)) t (cmath.tanh x).
Proof.
  destruct x as [a b]. intros H.
  repeat match goal with |- _ /\ _ => split end; elementary_unfold.
  - chain Rtrigo_def.sinh (Rtrigo_def.cosh a) H. apply derivable_pt_lim_sinh.
  - chain Rtrigo_def.cosh (Rtrigo_def.sinh a) H. apply derivable_pt_lim_cosh.
  - chain Rtrigo_def.tanh (/ (Rtrigo_def.cosh a * Rtrigo_def.cosh a))%R H.
    apply derivable_pt_lim_tanh.
Qed.

(** X16. The inverse hyperbolic functions differentiate: [asinh(x)]
    carries asinh o g; [atanh(x)] carries atanh o g when -1 < g(t) < 1;
    [acosh(x)] carries acosh o g when 1 < g(t). *)
Theorem inverse_hyperbolic_functions_differentiate
  (g : R -> R) (t : R) (x : dual R) :
  tracks g t x ->
  tracks (fun s => arcsinh (g s)) t (cmath.asinh x) /\
  ((-1 < g t < 1)%R ->
   tracks (fun s => / 2 * ln ((1 + g s) / (1 - g s)))%R t (cmath.atanh x)) /\
  ((1 < g t)%R ->
   tracks (fun s => ln (g s + R_sqrt.sqrt (g s * g s - 1)))%R t (cmath.acosh x)).
Proof.
  destruct x as [a b]. intros H.
  assert (Ha : a = g t) by (destruct H as [Ha _]; exact Ha).
  split; [| split; intros Hr; rewrite <- Ha in Hr]; elementary_unfold.
  - chain arcsinh (/ R_sqrt.sqrt (1 + a * a))%R H. apply derivable_pt_lim_asinh.
  - chain (fun u => / 2 * ln ((1 + u) / (1 - u)))%R (/ (1 - a * a))%R H.
    apply derivable_pt_lim_atanh. exact Hr.
  - chain (fun u => ln (u + R_sqrt.sqrt (u * u - 1)))%R
          (/ R_sqrt.sqrt (a * a - 1))%R H.
    apply derivable_pt_lim_acosh. exact Hr.
Qed.

(** X17. Exponential and logarithms differentiate: [exp(x)] and
    [expm1(x)] carry exp o g and exp o g - 1; [log(x)] carries ln o g when
    0 < g(t); [log1p(x)] carries ln (1 + g) when 0 < 1 + g(t). *)
Theorem exponential_logarithm_differentiate (g : R -> R) (t : R) (x : dual R) :
  tracks g t x ->
  tracks (fun s => Rtrigo_def.exp (g s)) t (cmath.exp x) /\
  tracks (fun s => Rtrigo_def.exp (g s) - 1)%R t (cmath.expm1 x) /\
  ((0 < g t)%R -> tracks (fun s => ln (g s)) t (log x)) /\
  ((0 < 1 + g t)%R -> tracks (fun s => ln (1 + g s))%R t (cmath.log1p x)).
Proof.
  destruct x as [a b]. intros H.
  assert (Ha : a = g t) by (destruct H as [Ha _]; exact Ha).
  split; [| split; [| split; intros Hr; rewrite <- Ha in Hr]];
    elementary_unfold.
  - chain Rtrigo_def.exp (Rtrigo_def.exp a) H. apply derivable_pt_lim_exp.
  - chain (fun u => Rtrigo_def.exp u - 1)%R (Rtrigo_def.exp a) H.
    apply derivable_pt_lim_expm1.
  - chain ln (/ a)%R H. apply derivable_pt_lim_ln. exact Hr.
  - chain (fun u => ln (1 + u))%R (/ (1 + a))%R H.
    apply derivable_pt_lim_log1p. exact Hr.
Qed.

(** X18. Square root and powers differentiate, where the real power with
    a positive base stands for [std::pow]: when 0 < g(t), [sqrt(x)]
    carries sqrt o g and [pow(x, y)] with a scalar exponent y carries
    g^y; when the scalar base f is positive, [pow(f, x)] carries f^g. *)
Theorem root_and_powers_differentiate (g : R -> R) (t y f : R) (x : dual R) :
  tracks g t x ->
  ((0 < g t)%R ->
   tracks (fun s => R_sqrt.sqrt (g s)) t (cmath.sqrt x) /\
   tracks (fun s => Rpower (g s) y) t (pow_scalar_exp x y)) /\
  ((0 < f)%R -> tracks (fun s => Rpower f (g s)) t (pow_scalar_base f x)).
Proof.
  destruct x as [a b]. intros H.
  assert (Ha : a = g t) by (destruct H as [Ha _]; exact Ha).
  split; [intros Hr; rewrite <- Ha in Hr; split | intros Hf];
    elementary_unfold.
  - chain R_sqrt.sqrt (/ (R_sqrt.sqrt a + R_sqrt.sqrt a))%R H.
    apply derivable_pt_lim_sqrt'. exact Hr.
  - chain (fun u => Rpower u y) (y * Rpower a (y - 1))%R H.
    apply derivable_pt_lim_power. exact Hr.
  - chain (Rpower f) (Rpower f a * ln f)%R H.
    apply derivable_pt_lim_Rpower_exponent.
Qed.

End Soundness.

(** ** The Newton iteration of the driver *)

Lemma newton_loop_S (fuel : nat) (f : dual float -> dual float) (x0 : float) :
  newton_loop (S fuel) f x0 =
  if newton_continues (snd (newton_body f x0))
  then newton_loop fuel f (fst (newton_body f x0))
  else Some (fst (newton_body f x0)).
Proof.
  cbn [newton_loop]. destruct (newton_body f x0) as [x' diff]. reflexivity.
Qed.

(** X19. [newtonMethod] returns the first iterate whose update is not
    above the tolerance: with [fuel] passes allowed it returns r exactly
    when some pass n < fuel is the first at which the loop condition
    [1.0E-15 < fabs_static(diff)] is false, and r is the iterate after
    that pass; it runs out of passes exactly when the condition is true
    at every pass. *)
Theorem newtonMethod_returns_first_converged
  (fuel : nat) (f : dual float -> dual float) (x0 r : float) :
  (newtonMethod fuel x0 f = Some r <->
   exists n : nat,
     (n < fuel)%nat /\
     (forall m : nat, (m < n)%nat ->
        newton_continues (snd (newton_body f (newton_iterate m f x0))) = true) /\
     newton_continues (snd (newton_body f (newton_iterate n f x0))) = false /\
     r = newton_iterate (S n) f x0) /\
  (newtonMethod fuel x0 f = None <->
   forall m : nat, (m < fuel)%nat ->
     newton_continues (snd (newton_body f (newton_iterate m f x0))) = true).
Proof.
  unfold newtonMethod. revert x0.
  induction fuel as [|fuel IH]; intros x0.
  - split; split.
    + discriminate.
    + intros (n & Hn & _). inversion Hn.
    + intros _ m Hm. inversion Hm.
    + reflexivity.
  - rewrite newton_loop_S.
    destruct (IH (fst (newton_body f x0))) as [IHs IHn].
    destruct (newton_continues (snd (newton_body f x0))) eqn:Hc.
    + split.
      * rewrite IHs. split.
        -- intros (n & Hn & Hbefore & Hstop & Hr).
           exists (S n). repeat split.
           ++ apply -> Nat.succ_lt_mono. exact Hn.
           ++ intros [|m] Hm; [exact Hc|].
              apply Hbefore. apply Nat.succ_lt_mono. exact Hm.
           ++ exact Hstop.
           ++ exact Hr.
        -- intros ([|n] & Hn & Hbefore & Hstop & Hr).
           ++ cbn [newton_iterate] in Hstop. congruence.
           ++ exists n. repeat split.
              ** apply Nat.succ_lt_mono. exact Hn.
              ** intros m Hm. apply (Hbefore (S m)).
                 apply -> Nat.succ_lt_mono. exact Hm.
              ** exact Hstop.
              ** exact Hr.
      * rewrite IHn. split.
        -- intros H [|m] Hm; [exact Hc|].
           apply H. apply Nat.succ_lt_mono. exact Hm.
        -- intros H m Hm. apply (H (S m)).
           apply -> Nat.succ_lt_mono. exact Hm.
    + split.
      * split.
        -- intros E. injection E as <-. exists O. repeat split.
           ++ apply Nat.lt_0_succ.
           ++ intros m Hm. inversion Hm.
           ++ exact Hc.
        -- intros ([|n] & Hn & Hbefore & Hstop & Hr).
           ++ rewrite Hr. reflexivity.
           ++ specialize (Hbefore O (Nat.lt_0_succ n)).
              cbn [newton_iterate] in Hbefore. congruence.
      * split; [discriminate|].
        intros H. specialize (H O (Nat.lt_0_succ fuel)).
        cbn [newton_iterate] in H. congruence.
Qed.

(** [sqrt_newton(10.0)], the computation of [main]: the loop ends at its
    23rd pass, not before, and returns the [double] just below the
    correctly rounded square root of 10, whose square misses 10 by
    2^-49. *)
Example sqrt_newton_10 :
  sqrt_newton 22 10%float = None /\
  sqrt_newton 23 10%float = Some 0x1.94c583ada5b52p+1%float /\
  PrimFloat.sqrt 10%float = 0x1.94c583ada5b53p+1%float /\
  (0x1.94c583ada5b52p+1 * 0x1.94c583ada5b52p+1 - 10 = - 0x1p-49)%float.
Proof. repeat split; vm_compute; reflexivity. Qed.

Section SquareRoot.
Context {T : Type} {S : Scalar T}.

Lemma squareroot_at_seed (n x : T) :
  squareroot n (mk_dual x sone) =
  mk_dual (x * x - n) ((sone * x + x * sone) - sone).
Proof. reflexivity. Qed.

Lemma newton_body_squareroot (n x : T) :
  newton_body (squareroot n) x =
  (x - (x * x - n) / ((sone * x + x * sone) - sone),
   (x * x - n) / ((sone * x + x * sone) - sone)).
Proof. reflexivity. Qed.

Hypothesis F : FieldLaws T.

Add Field squareroot_field : (scalar_field_theory F).

Lemma squareroot_fixed_point (n x : T) :
  (x + x) - sone <> szero ->
  (fst (newton_body (squareroot n) x) = x <-> x * x = n) /\
  (x * x = n -> snd (newton_body (squareroot n) x) = szero).
Proof.
  intros Hd.
  assert (Hd' : (sone * x + x * sone) - sone <> szero).
  { intros H. apply Hd. rewrite <- H. ring. }
  rewrite newton_body_squareroot. cbn [fst snd].
  set (d := (sone * x + x * sone) - sone) in *.
  split; [split|].
  - intros H.
    assert (Q : (x * x - n) / d = szero).
    { transitivity (x - (x - (x * x - n) / d)).
      - field. exact Hd'.
      - rewrite H. ring. }
    transitivity ((x * x - n) / d * d + n).
    + field. exact Hd'.
    + rewrite Q. ring.
  - intros <-. field. exact Hd'.
  - intros <-. field. exact Hd'.
Qed.

End SquareRoot.

(** X20. For every value type, [double] included, the functor
    [squareroot] of the driver at the seed (x, 1) returns the value
    x * x - n with the derivative component (1 * x + x * 1) - 1, one less
    than the product rule gives for x * x, its member [N] being built as
    {n, 1.0}; and one pass of the Newton body gives x - v / d for that
    value v and derivative component d.  In exact field arithmetic, where
    (x + x) - 1 is not 0, that update leaves x unchanged exactly when
    x * x = n, and its [diff] is then 0. *)
Theorem squareroot_newton_update {T : Type} {S : Scalar T} (n x : T) :
  squareroot n (mk_dual x sone) =
    mk_dual (x * x - n) ((sone * x + x * sone) - sone) /\
  newton_body (squareroot n) x =
    (x - (x * x - n) / ((sone * x + x * sone) - sone),
     (x * x - n) / ((sone * x + x * sone) - sone)) /\
  (FieldLaws T ->
   (x + x) - sone <> szero ->
   (fst (newton_body (squareroot n) x) = x <-> x * x = n) /\
   (x * x = n -> snd (newton_body (squareroot n) x) = szero)).
Proof.
  repeat match goal with |- _ /\ _ => split end.
  - apply squareroot_at_seed.
  - apply newton_body_squareroot.
  - intros F Hd. exact (squareroot_fixed_point F n x Hd).
Qed.

(** ** Bessel functions and their recurrences *)

Section BesselSoundness.

Ltac bessel_unfold :=
  cbv [cyl_bessel_i cyl_bessel_k cyl_bessel_j cyl_neumann
       calculateBesselFunctions calculateModifiedBesselFunctions
       m_a m_b seqb sadd ssub smul sopp sone szero shalf
       R_Compare R_Scalar].

(** X21. Given a wrapped function Z that obeys the recurrence written in
    the source, the Bessel helpers differentiate, for real order and
    argument: for nu <> 0, [calculateBesselFunctions] carries Z_nu o g when
    Z_nu' = (Z_(nu-1) - Z_(nu+1)) / 2; [calculateModifiedBesselFunctions]
    carries Z_nu o g when Z_0' = Z_1 (nu = 0), respectively
    Z_nu' = (Z_(nu-1) + Z_(nu+1)) / 2 (nu <> 0); and [cyl_bessel_k], which
    negates the derivative component, carries K_nu o g when K_0' = -K_1,
    respectively K_nu' = -(K_(nu-1) + K_(nu+1)) / 2. *)
Theorem bessel_recurrences_differentiate
  (P : SpecialProvider R R) (Z : R -> R -> R) (nu : R)
  (g : R -> R) (t : R) (x : dual R) :
  tracks g t x ->
  (nu <> 0%R ->
   derivable_pt_lim (Z nu) (g t)
     (/ 2 * (Z (nu - 1) (g t) - Z (nu + 1) (g t)))%R ->
   tracks (fun s => Z nu (g s)) t (calculateBesselFunctions nu x Z)) /\
  (derivable_pt_lim (Z 0%R) (g t) (Z 1%R (g t)) ->
   tracks (fun s => Z 0%R (g s)) t (calculateModifiedBesselFunctions 0%R x Z)) /\
  (nu <> 0%R ->
   derivable_pt_lim (Z nu) (g t)
     (/ 2 * (Z (nu - 1) (g t) + Z (nu + 1) (g t)))%R ->
   tracks (fun s => Z nu (g s)) t (calculateModifiedBesselFunctions nu x Z)) /\
  (derivable_pt_lim (std_cyl_bessel_k 0%R) (g t)
     (- std_cyl_bessel_k 1%R (g t))%R ->
   tracks (fun s => std_cyl_bessel_k 0%R (g s)) t (cyl_bessel_k 0%R x)) /\
  (nu <> 0%R ->
   derivable_pt_lim (std_cyl_bessel_k nu) (g t)
     (- (/ 2 * (std_cyl_bessel_k (nu - 1) (g t)
                + std_cyl_bessel_k (nu + 1) (g t))))%R ->
   tracks (fun s => std_cyl_bessel_k nu (g s)) t (cyl_bessel_k nu x)).
Proof.
  destruct x as [a b]. intros H.
  assert (Ha : a = g t) by (destruct H as [Ha _]; exact Ha).
  rewrite <- Ha.
  repeat match goal with |- _ /\ _ => split end; bessel_unfold.
  - intros Hnu HZ. destruct (Req_dec_T nu 0) as [E | _]; [contradiction|].
    eapply (tracks_chain (Z nu)); [exact H | exact HZ | ring].
  - intros HZ. destruct (Req_dec_T 0 0) as [_ | E]; [| contradiction E; reflexivity].
    eapply (tracks_chain (Z 0%R)); [exact H | exact HZ | ring].
  - intros Hnu HZ. destruct (Req_dec_T nu 0) as [E | _]; [contradiction|].
    eapply (tracks_chain (Z nu)); [exact H | exact HZ | ring].
  - intros HZ. destruct (Req_dec_T 0 0) as [_ | E]; [| contradiction E; reflexivity].
    cbv [m_a m_b].
    eapply (tracks_chain (std_cyl_bessel_k 0%R)); [exact H | exact HZ | ring].
  - intros Hnu HZ. destruct (Req_dec_T nu 0) as [E | _]; [contradiction|].
    cbv [m_a m_b].
    eapply (tracks_chain (std_cyl_bessel_k nu)); [exact H | exact HZ | ring].
Qed.

End BesselSoundness.

(** ** The two-argument arctangent *)

Section Atan2Soundness.

(** A function with a derivative at [t] that is positive there stays
    positive on an interval around [t]. *)
Lemma positive_near (g : R -> R) (t l : R) :
  derivable_pt_lim g t l ->
  (0 < g t)%R ->
  exists alp : R, (0 < alp)%R /\
    forall z : R, (t - alp < z < t + alp)%R -> (0 < g z)%R.
Proof.
  intros Hd Hpos.
  assert (Hc : continuity_pt g t).
  { apply derivable_continuous_pt. exists l. exact Hd. }
  destruct (Hc (g t) Hpos) as (alp & Halp & Hnear).
  exists alp. split; [lra|].
  intros z Hz.
  destruct (Req_dec_T t z) as [<- | Hne]; [exact Hpos|].
  assert (K : (Rabs (g z - g t) < g t)%R).
  { apply (Hnear z). split.
    - split; [exact I | exact Hne].
    - cbn. unfold Rdist. apply Rabs_def1; lra. }
  apply Rabs_def2 in K. lra.
Qed.

(** X22. [atan2] differentiates in the right half-plane: if y carries gy
    and x carries gx at t and gx(t) is positive, then [atan2(y, x)]
    carries the angle atan2(gy, gx). *)
Theorem atan2_differentiates (gy gx : R -> R) (t : R) (y x : dual R) :
  tracks gy t y ->
  tracks gx t x ->
  (0 < gx t)%R ->
  tracks (fun s => Ratan2 (gy s) (gx s)) t (cmath.atan2 y x).
Proof.
  destruct y as [ya yb], x as [xa xb].
  intros [Hya Hyb] [Hxa Hxb] Hpos. cbn [m_a m_b] in *. subst ya xa.
  assert (Hnz : gx t <> 0%R) by lra.
  destruct (positive_near gx t xb Hxb Hpos) as (alp & Halp & Hnear).
  pose proof (derivable_pt_lim_div _ _ _ _ _ Hyb Hxb Hnz) as Hq.
  pose proof (derivable_pt_lim_comp _ Ratan.atan t _ _ Hq
                (derivable_pt_lim_atan' _)) as Hat.
  assert (Hsum : (gx t * gx t + gy t * gy t <> 0)%R) by nra.
  cbv [cmath.atan2 m_a m_b satan2 sadd smul sdiv sopp sone
       R_ElementaryProvider R_Scalar].
  eapply tracks_intro.
  - reflexivity.
  - apply (derivable_pt_lim_locally_ext
             (fun s => Ratan.atan (gy s / gx s)) _ t (t - alp) (t + alp))%R.
    + lra.
    + intros z Hz. unfold Ratan2.
      destruct (Rlt_dec 0 (gx z)) as [_ | Hn]; [reflexivity|].
      destruct (Hn (Hnear z Hz)).
    + exact Hat.
  - unfold div_fct, Rsqr. field. split; assumption.
Qed.

End Atan2Soundness.

(** ** The further properties at concrete inputs *)

Lemma R_FieldLaws : FieldLaws R.
Proof.
  constructor.
  - exact RTheory.
  - exact R1_neq_R0.
  - intros p q. cbn. unfold Rdiv. ring.
  - intros p Hp. cbn. field. exact Hp.
Qed.


Lemma dq_value_nonzero (a b : Z) :
  Qeq_bool (a # 1) (0 # 1) = false -> m_a (dq a b) <> szero.
Proof. intros H. exact (qc_neq a 0 1 1 H). Qed.

(** (1, 2) + (3, 4) is (3, 4) + (1, 2), and (1, 2) + -(1, 2) is zero. *)
Lemma addition_abelian_group_witness :
  op_add (dq 1 2) (dq 3 4) = op_add (dq 3 4) (dq 1 2) /\
  op_add (dq 1 2) (neg (dq 1 2)) = Zero.
Proof.
  destruct (addition_abelian_group Qc_FieldLaws (dq 1 2) (dq 3 4) (dq 5 6))
    as (H1 & _ & _ & _ & H5 & _).
  split; assumption.
Defined.

Lemma multiplication_commutative_ring_witness :
  op_mul (dq 1 2) (dq 3 4) = op_mul (dq 3 4) (dq 1 2) /\
  op_mul (dq 1 2) (op_add (dq 3 4) (dq 5 6))
    = op_add (op_mul (dq 1 2) (dq 3 4)) (op_mul (dq 1 2) (dq 5 6)) /\
  op_mul (dq 1 2) (dual_of sone) = dq 1 2.
Proof.
  destruct (multiplication_commutative_ring Qc_FieldLaws
              (dq 1 2) (dq 3 4) (dq 5 6))
    as (H1 & _ & H3 & _ & H5 & _).
  repeat match goal with |- _ /\ _ => split end; assumption.
Defined.

Lemma epsilon_squared_is_zero_witness :
  op_mul (mk_dual szero (qc 2 1)) (mk_dual szero (qc 3 1)) = Zero /\
  op_add (dual_of (qc 5 1)) (mk_dual szero (qc 2 1)) = mk_dual (qc 5 1) (qc 2 1).
Proof.
  destruct (epsilon_squared_is_zero Qc_FieldLaws (qc 5 1) (qc 2 1) (qc 3 1))
    as (H1 & _ & H3 & _).
  split; assumption.
Defined.

Lemma division_inverts_multiplication_witness :
  m_a (dq 3 4) <> szero /\
  op_div (op_mul (dq 1 2) (dq 3 4)) (dq 3 4) = dq 1 2 /\
  op_mul (dq 3 4) (op_div_l sone (dq 3 4)) = dual_of sone.
Proof.
  assert (Hq : m_a (dq 3 4) <> szero) by (apply dq_value_nonzero; reflexivity).
  destruct (division_inverts_multiplication Qc_FieldLaws (dq 1 2) (dq 3 4) Hq)
    as (H1 & _ & _ & H4 & _).
  repeat match goal with |- _ /\ _ => split end; assumption.
Defined.

Lemma scalar_overloads_lift_witness :
  qc 3 1 <> szero /\
  op_mul_l (qc 3 1) (dq 1 2) = op_mul (dual_of (qc 3 1)) (dq 1 2) /\
  op_div_r (dq 1 2) (qc 3 1) = op_div (dq 1 2) (dual_of (qc 3 1)).
Proof.
  assert (Hk : qc 3 1 <> szero) by (apply (qc_neq 3 0 1 1); reflexivity).
  destruct (scalar_overloads_lift Qc_FieldLaws (dq 1 2) (qc 3 1))
    as (_ & _ & _ & _ & _ & H6 & _ & H8).
  repeat match goal with |- _ /\ _ => split end;
    [exact Hk | exact H6 | exact (H8 Hk)].
Defined.

Lemma conjugation_homomorphism_witness :
  conjugated (op_mul (dq 1 2) (dq 3 4))
    = op_mul (conjugated (dq 1 2)) (conjugated (dq 3 4)) /\
  op_mul (dq 1 2) (conjugated (dq 1 2)) = dual_of (m_a (dq 1 2) * m_a (dq 1 2)).
Proof.
  destruct (conjugation_homomorphism Qc_FieldLaws (dq 1 2) (dq 3 4) (qc 5 1))
    as (_ & _ & H3 & _ & H5 & _).
  split; assumption.
Defined.

Lemma increments_and_assignments_round_trip_witness :
  pre_dec (pre_inc (dq 1 2)) = dq 1 2 /\
  sub_assign (add_assign (dq 1 2) (dq 3 4)) (dq 3 4) = dq 1 2.
Proof.
  destruct (increments_and_assignments_round_trip Qc_FieldLaws (dq 1 2) (dq 3 4))
    as (H1 & _ & _ & _ & H5 & _).
  split; assumption.
Defined.

Lemma comparison_total_order_witness :
  op_lt (dq 1 2) (dq 1 2) = false /\
  (op_le (dq 1 2) (dq 1 3) = true \/ op_le (dq 1 3) (dq 1 2) = true) /\
  op_ge (dq 1 2) (dq 1 3) = op_le (dq 1 3) (dq 1 2).
Proof.
  destruct (comparison_total_order Qc_OrderLaws (dq 1 2) (dq 1 3) (dq 2 0))
    as (H1 & _ & _ & _ & _ & _ & H7 & H8 & _).
  repeat match goal with |- _ /\ _ => split end; assumption.
Defined.

Lemma derivative_component_linear_witness :
  (ssqrt 4 + ssqrt 4 <> 0)%R /\
  seed_linear_at (cmath.sqrt (T := R)) 4%R /\
  m_b (cmath.sqrt (dual_of 4%R)) = 0%R.
Proof.
  assert (Hd : (ssqrt 4 + ssqrt 4 <> 0)%R).
  { cbn. pose proof (sqrt_lt_R0 4). lra. }
  split; [exact Hd|].
  apply (derivative_component_linear (P := exp_SpecialProvider) R_FieldLaws
           0%R (fun _ _ => 0%R) 2%R 2%R
           cmath.sqrt (fun a => ssqrt a + ssqrt a)%R 4%R).
  - unfold unary_functions. cbn [In].
    do 2 right. left. reflexivity.
  - exact Hd.
Defined.


Lemma squareroot_newton_update_witness :
  (qc 2 1 + qc 2 1) - sone <> szero /\
  (fst (newton_body (squareroot (qc 4 1)) (qc 2 1)) = qc 2 1
   <-> qc 2 1 * qc 2 1 = qc 4 1).
Proof.
  assert (Hd : (qc 2 1 + qc 2 1) - sone <> szero).
  { intros E. apply (f_equal this) in E. vm_compute in E. discriminate. }
  split; [exact Hd|].
  destruct (squareroot_newton_update (qc 4 1) (qc 2 1)) as (_ & _ & H3).
  destruct (H3 Qc_FieldLaws Hd) as (H4 & _).
  exact H4.
Defined.

(** The seed (2, 1) and the constant 3: x + 3, x * 3 and, from the seed
    twice, x * x at x = 2. *)
Lemma arithmetic_differentiates_witness :
  tracks (fun s => s + 3)%R 2%R (op_add (mk_dual 2%R 1%R) (dual_of 3%R)) /\
  tracks (fun s => s * 3)%R 2%R (op_mul (mk_dual 2%R 1%R) (dual_of 3%R)) /\
  tracks (fun s => s * s)%R 2%R (op_mul (mk_dual 2%R 1%R) (mk_dual 2%R 1%R)).
Proof.
  destruct (arithmetic_differentiates (fun s => s) (fun _ => 3%R) 2%R 0%R
              (mk_dual 2%R 1%R) (dual_of 3%R)
              (tracks_variable 2%R) (tracks_constant 3%R 2%R))
    as (H1 & _ & H3 & _).
  destruct (arithmetic_differentiates (fun s => s) (fun s => s) 2%R 0%R
              (mk_dual 2%R 1%R) (mk_dual 2%R 1%R)
              (tracks_variable 2%R) (tracks_variable 2%R))
    as (_ & _ & K3 & _).
  repeat match goal with |- _ /\ _ => split end; assumption.
Defined.

(** The constant 1 divided by the seed (2, 1): 1 / x at x = 2. *)
Lemma division_differentiates_witness :
  (2 <> 0)%R /\
  tracks (fun s => 1 / s)%R 2%R (op_div (dual_of 1%R) (mk_dual 2%R 1%R)) /\
  tracks (fun s => 1 / s)%R 2%R (op_div_l 1%R (mk_dual 2%R 1%R)).
Proof.
  assert (H2 : (2 <> 0)%R) by lra.
  destruct (division_differentiates (fun _ => 1%R) (fun s => s) 2%R 1%R
              (dual_of 1%R) (mk_dual 2%R 1%R)
              (tracks_constant 1%R 2%R) (tracks_variable 2%R) H2)
    as (H1 & K1 & _).
  repeat match goal with |- _ /\ _ => split end; assumption.
Defined.

(** The chain-rule example of the specification, sin(x * x), at x = 1. *)
Lemma trigonometric_functions_differentiate_witness :
  tracks (fun s => Rtrigo_def.sin (s * s))%R 1%R
         (cmath.sin (op_mul (mk_dual 1%R 1%R) (mk_dual 1%R 1%R))) /\
  tracks (fun s => Rtrigo_def.cos s) 0%R (cmath.cos (mk_dual 0%R 1%R)) /\
  tracks (fun s => Rtrigo1.tan s) 0%R (cmath.tan (mk_dual 0%R 1%R)).
Proof.
  destruct (trigonometric_functions_differentiate (fun s => s * s)%R 1%R _
              (tracks_square 1%R))
    as (H1 & _).
  destruct (trigonometric_functions_differentiate (fun s => s) 0%R _
              (tracks_variable 0%R))
    as (_ & H2 & H3).
  repeat match goal with |- _ /\ _ => split end; try assumption.
  apply H3. rewrite cos_0. lra.
Defined.

Lemma inverse_trigonometric_functions_differentiate_witness :
  tracks (fun s => Ratan.atan s) 2%R (cmath.atan (mk_dual 2%R 1%R)) /\
  tracks (fun s => Ratan.asin s) 0%R (cmath.asin (mk_dual 0%R 1%R)) /\
  tracks (fun s => Ratan.acos s) 0%R (cmath.acos (mk_dual 0%R 1%R)).
Proof.
  destruct (inverse_trigonometric_functions_differentiate (fun s => s) 2%R _
              (tracks_variable 2%R))
    as (H1 & _).
  destruct (inverse_trigonometric_functions_differentiate (fun s => s) 0%R _
              (tracks_variable 0%R))
    as (_ & H2).
  split; [exact H1 | apply H2; lra].
Defined.

Lemma hyperbolic_functions_differentiate_witness :
  tracks (fun s => Rtrigo_def.sinh s) 2%R (cmath.sinh (mk_dual 2%R 1%R)) /\
  tracks (fun s => Rtrigo_def.tanh s) 2%R (cmath.tanh (mk_dual 2%R 1%R)).
Proof.
  destruct (hyperbolic_functions_differentiate (fun s => s) 2%R _
              (tracks_variable 2%R))
    as (H1 & _ & H3).
  split; assumption.
Defined.

Lemma inverse_hyperbolic_functions_differentiate_witness :
  tracks (fun s => arcsinh s) 2%R (cmath.asinh (mk_dual 2%R 1%R)) /\
  tracks (fun s => / 2 * ln ((1 + s) / (1 - s)))%R 0%R
         (cmath.atanh (mk_dual 0%R 1%R)) /\
  tracks (fun s => ln (s + R_sqrt.sqrt (s * s - 1)))%R 2%R
         (cmath.acosh (mk_dual 2%R 1%R)).
Proof.
  destruct (inverse_hyperbolic_functions_differentiate (fun s => s) 2%R _
              (tracks_variable 2%R))
    as (H1 & _ & H3).
  destruct (inverse_hyperbolic_functions_differentiate (fun s => s) 0%R _
              (tracks_variable 0%R))
    as (_ & K2 & _).
  repeat match goal with |- _ /\ _ => split end;
    [exact H1 | apply K2; lra | apply H3; lra].
Defined.

Lemma exponential_logarithm_differentiate_witness :
  tracks (fun s => Rtrigo_def.exp s) 2%R (cmath.exp (mk_dual 2%R 1%R)) /\
  tracks (fun s => ln s) 2%R (log (mk_dual 2%R 1%R)) /\
  tracks (fun s => ln (1 + s))%R 2%R (cmath.log1p (mk_dual 2%R 1%R)).
Proof.
  destruct (exponential_logarithm_differentiate (fun s => s) 2%R _
              (tracks_variable 2%R))
    as (H1 & _ & H3 & H4).
  repeat match goal with |- _ /\ _ => split end;
    [exact H1 | apply H3; lra | apply H4; lra].
Defined.

Lemma root_and_powers_differentiate_witness :
  tracks (fun s => R_sqrt.sqrt s) 2%R (cmath.sqrt (mk_dual 2%R 1%R)) /\
  tracks (fun s => Rpower s 3) 2%R (pow_scalar_exp (mk_dual 2%R 1%R) 3%R) /\
  tracks (fun s => Rpower 2 s) 2%R (pow_scalar_base 2%R (mk_dual 2%R 1%R)).
Proof.
  destruct (root_and_powers_differentiate (fun s => s) 2%R 3%R 2%R _
              (tracks_variable 2%R))
    as (H1 & H2).
  destruct H1 as (H1 & H1'); [lra|].
  repeat match goal with |- _ /\ _ => split end;
    [exact H1 | exact H1' | apply H2; lra].
Defined.

(** With the exponential provider: s |-> e^s obeys the recurrences of the
    modified function of the first kind, s |-> e^-s those of the second
    kind, and a constant those of the first kind. *)
Lemma bessel_recurrences_differentiate_witness :
  tracks (fun s => 1%R) 2%R
         (calculateBesselFunctions 1%R (mk_dual 2%R 1%R) (fun _ _ => 1%R)) /\
  tracks (fun s => Rtrigo_def.exp s) 2%R
         (cyl_bessel_i (P := exp_SpecialProvider) 0%R (mk_dual 2%R 1%R)) /\
  tracks (fun s => Rtrigo_def.exp s) 2%R
         (cyl_bessel_i (P := exp_SpecialProvider) 1%R (mk_dual 2%R 1%R)) /\
  tracks (fun s => Rtrigo_def.exp (- s)) 2%R
         (cyl_bessel_k (P := exp_SpecialProvider) 1%R (mk_dual 2%R 1%R)).
Proof.
  assert (Hneg : forall y, derivable_pt_lim (fun s => Rtrigo_def.exp (- s)) y
                             (- Rtrigo_def.exp (- y))%R).
  { intros y. eapply derivable_pt_lim_eq.
    - exact (derivable_pt_lim_comp (fun s => - s)%R Rtrigo_def.exp y _ _
               (derivable_pt_lim_opp _ _ _ (derivable_pt_lim_id y))
               (derivable_pt_lim_exp (- y))).
    - ring. }
  assert (H10 : (1 <> 0)%R) by lra.
  destruct (bessel_recurrences_differentiate exp_SpecialProvider
              (fun _ _ => 1%R) 1%R (fun s => s) 2%R _ (tracks_variable 2%R))
    as (HJ & _).
  destruct (bessel_recurrences_differentiate exp_SpecialProvider
              (fun _ s => Rtrigo_def.exp s) 1%R (fun s => s) 2%R _
              (tracks_variable 2%R))
    as (_ & HI0 & HI1 & _ & HK).
  repeat match goal with |- _ /\ _ => split end.
  - apply HJ; [exact H10|].
    eapply derivable_pt_lim_eq; [apply derivable_pt_lim_const | ring].
  - apply HI0. apply derivable_pt_lim_exp.
  - apply HI1; [exact H10|].
    eapply derivable_pt_lim_eq; [apply derivable_pt_lim_exp | cbn; field].
  - apply HK; [exact H10|].
    eapply derivable_pt_lim_eq; [apply Hneg | cbn; field].
Defined.

(** The angle of the point (1, s) at s = 2. *)
Lemma atan2_differentiates_witness :
  (0 < 1)%R /\
  tracks (fun s => Ratan2 s 1) 2%R (cmath.atan2 (mk_dual 2%R 1%R) (dual_of 1%R)).
Proof.
  split; [lra|].
  apply (atan2_differentiates (fun s => s) (fun _ => 1%R) 2%R
           (mk_dual 2%R 1%R) (dual_of 1%R)
           (tracks_variable 2%R) (tracks_constant 1%R 2%R)).
  lra.
Defined.

End DualNumbers.
